(** * NestJS + Next.js gateway: request router and readiness gate

    A shallow embedding of
    - [apps/backend/src/main.ts]: the middleware that [bootstrap] installs
      in front of the Nest routes,
    - [apps/backend/src/app.controller.ts]: the routes of [AppController],
    - [apps/backend/src/next/next.service.ts]: [NextService], on a model
      of the JavaScript job queue,
    and the properties of the specification stated over it. *)

From Stdlib Require Import String Ascii.
From stdpp Require Import base list strings.

Local Open Scope string_scope.
Local Open Scope list_scope.

Set Warnings "-register-all".

(** ** Values shared by both files *)

(** A JavaScript [Error]; only its message is ever looked at. *)
Record Error := mkError { message : string }.

(** How an awaited operation ends: [await] returns, or throws [e]. *)
Inductive outcome :=
| Fulfilled
| Rejected (e : Error).

(** [s.startsWith(p)] *)
Definition startsWith (s p : string) : bool := String.prefix p s.

(** * The request router ([main.ts]) *)
Module Router.

Inductive Method := GET | POST | PUT | DELETE.

(** The part of an Express request that the code reads. [url] is the
    request target: the path followed by the query string, if any. *)
Record Request := mkRequest { method : Method; url : string }.

(** The response object; the middleware only hands it on. *)
Record Response := mkResponse { res_id : nat }.

(** Calls that the middleware makes on its collaborators. *)
Inductive event :=
| CallNext (arg : option Error)           (* next() / next(error) *)
| CallHandle (req : Request) (res : Response). (* handle(req, res) *)

(** Statements of the middleware: the calls made so far and how the
    statement completed (normally with a value, or by throwing). *)
Definition Act (A : Type) : Type := list event * (Error + A).

(** [try { body } catch (error) { handler error }] *)
Definition try_catch {A} (body : Act A) (handler : Error -> Act A) : Act A :=
  match body with
  | (t, inl e) => let '(t', r) := handler e in (t ++ t', r)
  | (t, inr a) => (t, inr a)
  end.

(** [next()] and [next(error)]: Express runs the rest of the chain and
    returns. *)
Definition next (arg : option Error) : Act unit := ([CallNext arg], inr tt).

(** [const apiPrefix = 'api'] *)
Definition apiPrefix : string := "api".

Section Middleware.

(** [handle = nextService.getRequestHandler()]: the renderer's request
    handler.  [handle req res] says how [await handle(req, res)] ends. *)
Variable handle : Request -> Response -> outcome.

Definition await_handle (req : Request) (res : Response) : Act unit :=
  ([CallHandle req res],
   match handle req res with
   | Fulfilled => inr tt
   | Rejected e => inl e
   end).

(** The function passed to [server.use]:
<<
  async (req, res, next) => {
    if (req.url.startsWith(`/${apiPrefix}`)) { return next(); }
    try { await handle(req, res); } catch (error) { next(error); }
  }
>> *)
Definition middleware (req : Request) (res : Response) : Act unit :=
  if startsWith (url req) ("/" +:+ apiPrefix) then
    next None
  else
    try_catch (await_handle req res) (fun error => next (Some error)).

(** The calls made while serving one request. *)
Definition calls (req : Request) (res : Response) : list event :=
  fst (middleware req res).

(** How the promise of the async middleware settles. *)
Definition completion (req : Request) (res : Response) : outcome :=
  match snd (middleware req res) with
  | inl e => Rejected e
  | inr _ => Fulfilled
  end.

End Middleware.

(** What happened to a request, read off the calls. *)
Definition renderer_invoked (t : list event) : Prop :=
  exists req res, In (CallHandle req res) t.

Definition api_dispatched (t : list event) : Prop := In (CallNext None) t.

Definition error_forwarded (e : Error) (t : list event) : Prop :=
  In (CallNext (Some e)) t.

(** [req.path]: the request target up to the first [?]. *)
Fixpoint pathname (u : string) : string :=
  match u with
  | EmptyString => EmptyString
  | String c u' => if Ascii.eqb c "?" then EmptyString else String c (pathname u')
  end.

(** The string has no [?]. *)
Fixpoint no_query_mark (p : string) : bool :=
  match p with
  | EmptyString => true
  | String c p' => negb (Ascii.eqb c "?") && no_query_mark p'
  end.

(** "Starts with the prefix" read by path segments, as in "under
    [/api]": the path is [prefix] itself or [prefix] followed by a
    slash.  The middleware does not compute this. *)
Definition under (prefix path : string) : bool :=
  String.eqb path prefix || startsWith path (prefix +:+ "/").

(** ** The API layer ([app.controller.ts]) *)

(** Bodies that the controller methods return. *)
Inductive body :=
| Text (s : string)
| Json (fields : list (string * string)).

Section Api.

(** [this.appService.getHello()]; [AppService] is injected. *)
Variable hello : string.
(** [new Date().toISOString()] at the time of the request. *)
Variable now : string.

Definition getHello : body := Text hello.

Definition getStatus : body :=
  Json [("status", "ok");
        ("timestamp", now);
        ("message", "NestJS API is running!");
        ("service", "NestJS + Next.js Monorepo")].

(** One decorated method: [@Get(path)]. *)
Record route := mkRoute { r_method : Method; r_path : string; r_body : body }.

(** [@Controller()] with [@Get()] and [@Get('status')]. *)
Definition controller_path : string := "".
Definition AppController : list route :=
  [ mkRoute GET "" getHello; mkRoute GET "status" getStatus ].

(** Appends a path segment; an empty segment adds nothing. *)
Definition add_segment (base seg : string) : string :=
  if String.eqb seg "" then base else base +:+ "/" +:+ seg.

(** The path a method is mounted on after
    [app.setGlobalPrefix(apiPrefix)]. *)
Definition mounted (r : route) : string :=
  add_segment (add_segment (add_segment "" apiPrefix) controller_path) (r_path r).

Definition Method_eqb (a b : Method) : bool :=
  match a, b with
  | GET, GET | POST, POST | PUT, PUT | DELETE, DELETE => true
  | _, _ => false
  end.

Definition matches (req : Request) (r : route) : bool :=
  Method_eqb (method req) (r_method r)
  && String.eqb (pathname (url req)) (mounted r).

(** The API dispatch: the first route that matches, if any. *)
Definition dispatch (req : Request) : option body :=
  r_body <$> find (matches req) AppController.

(** ** The request as the API sees it *)

(** A request for the mounted path of a route, with a query string. *)
Definition request_for (r : route) (query : string) : Request :=
  mkRequest (r_method r) (mounted r +:+ String "?" query).

End Api.

End Router.

(** * The readiness gate ([next.service.ts]) *)
Module Gate.

(** The object that [next({ dev, dir })] returns, named after the
    execution of [initializeNext] that created it. *)
Record NextServer := mkServer { made_by : nat }.

(** What [this.server.getRequestHandler()] returns. *)
Inductive RequestHandler := HandlerOf (srv : NextServer).

(** What one call [next({ dev, dir })] does. *)
Inductive next_result :=
| NextThrows (e : Error)   (* throws *)
| NextFalsy                (* returns a falsy value *)
| NextObject.              (* returns a server; [prepare()] gives a pending promise *)

(** The promise that one execution of [initializeNext] returned.
    While it is pending the execution is suspended at
    [await this.server.prepare()]; [resumed] says that the promise of
    [prepare()] has settled and the resumption is queued; [waiters] are
    the calls of [ensureReady] suspended at [await this.readyPromise],
    in the order they subscribed. *)
Inductive promise :=
| Pending (resumed : bool) (waiters : list nat)
| Settled (o : outcome).

(** What the code around the service does inside one job. *)
Inductive action :=
| Call                          (* [nextService.ensureReady()] *)
| Spawn (script : list action)  (* [queueMicrotask(() => { script })] *)
| Settle (p : nat) (o : outcome). (* the promise of [prepare()] of execution [p] settles *)

(** Entries of the microtask queue. *)
Inductive job :=
| ResumeInitializeNext (p : nat) (o : outcome) (* after [await this.server.prepare()] *)
| ResumeEnsureReady (c : nat) (o : outcome)    (* after [await this.readyPromise] *)
| Script (script : list action).

(** The fields of [NextService], the promises it created and the job
    queue.  Calls of [ensureReady] are numbered in call order; [results]
    lists how their promises settled, in the order they settled. *)
Record state := mkState {
  server : option NextServer;
  readyPromise : option nat;
  promises : list promise;
  calls : nat;
  results : list (nat * outcome);
  microtasks : list job
}.

(** [new NextService()] *)
Definition fresh : state := mkState None None [] 0 [] [].

Definition set_server (v : option NextServer) (s : state) : state :=
  mkState v (readyPromise s) (promises s) (calls s) (results s) (microtasks s).

Definition set_readyPromise (v : option nat) (s : state) : state :=
  mkState (server s) v (promises s) (calls s) (results s) (microtasks s).

Definition set_promises (v : list promise) (s : state) : state :=
  mkState (server s) (readyPromise s) v (calls s) (results s) (microtasks s).

Definition set_calls (v : nat) (s : state) : state :=
  mkState (server s) (readyPromise s) (promises s) v (results s) (microtasks s).

Definition record_result (c : nat) (o : outcome) (s : state) : state :=
  mkState (server s) (readyPromise s) (promises s) (calls s)
          (results s ++ [(c, o)]) (microtasks s).

Definition enqueue (js : list job) (s : state) : state :=
  mkState (server s) (readyPromise s) (promises s) (calls s) (results s)
          (microtasks s ++ js).

Definition uninitialized : Error := mkError "Next.js was not initialized yet".

(** [getNextServer()] *)
Definition getNextServer (s : state) : Error + NextServer :=
  match server s with
  | None => inl uninitialized
  | Some srv => inr srv
  end.

(** [getRequestHandler()] *)
Definition getRequestHandler (s : state) : Error + RequestHandler :=
  match server s with
  | None => inl uninitialized
  | Some srv => inr (HandlerOf srv)
  end.

Section Service.

(** The imported [next]: what its [p]-th call does. *)
Variable next : nat -> next_result.

(** The [try] block of [initializeNext], run by its [p]-th execution up
    to the [await]: the state it leaves and the error it threw, if
    any. *)
Definition initializeNext_try (p : nat) (s : state) : state * option Error :=
  match next p with
  | NextThrows e => (s, Some e)
  | NextFalsy =>
      (set_server None s, Some (mkError "Failed to initialize Next.js server"))
  | NextObject => (set_server (Some (mkServer p)) s, None)
  end.

(** The [catch] block of [initializeNext]; the caller rejects the
    promise with the error thrown again. *)
Definition initializeNext_catch (s : state) : state := set_server None s.

(** The call [this.initializeNext()]: runs until the first [await] and
    returns a promise. *)
Definition initializeNext (s : state) : nat * state :=
  let p := length (promises s) in
  match initializeNext_try p s with
  | (s1, Some e) =>
      let s2 := initializeNext_catch s1 in
      (p, set_promises (promises s2 ++ [Settled (Rejected e)]) s2)
  | (s1, None) =>
      (p, set_promises (promises s1 ++ [Pending false []]) s1)
  end.

(** [await this.readyPromise] in call [c]: subscribe to a pending
    promise, or queue the resumption if it has settled. *)
Definition await_readyPromise (p c : nat) (s : state) : state :=
  match promises s !! p with
  | Some (Pending r ws) => set_promises (<[p := Pending r (ws ++ [c])]> (promises s)) s
  | Some (Settled o) => enqueue [ResumeEnsureReady c o] s
  | None => s
  end.

(** The call [this.ensureReady()], up to its [await]. *)
Definition ensureReady (s : state) : state :=
  let c := calls s in
  let s := set_calls (S c) s in
  let '(p, s) :=
    match readyPromise s with
    | Some p => (p, s)
    | None =>
        let '(p, s') := initializeNext s in
        (p, set_readyPromise (Some p) s')
    end in
  await_readyPromise p c s.

(** [onModuleInit()] awaits [this.ensureReady()]. *)
Definition onModuleInit (s : state) : state := ensureReady s.

(** Promise [p] settles: its waiters are queued in subscription
    order. *)
Definition settle (p : nat) (o : outcome) (s : state) : state :=
  match promises s !! p with
  | Some (Pending _ ws) =>
      enqueue (map (fun c => ResumeEnsureReady c o) ws)
              (set_promises (<[p := Settled o]> (promises s)) s)
  | _ => s
  end.

(** [initializeNext] after its [await]: log and return, or run the
    [catch] block and throw. *)
Definition resume_initializeNext (p : nat) (o : outcome) (s : state) : state :=
  match o with
  | Fulfilled => settle p Fulfilled s
  | Rejected e => settle p (Rejected e) (initializeNext_catch s)
  end.

(** [ensureReady] after its [await]: return, or clear
    [this.readyPromise] and throw. *)
Definition resume_ensureReady (c : nat) (o : outcome) (s : state) : state :=
  match o with
  | Fulfilled => record_result c Fulfilled s
  | Rejected e => record_result c (Rejected e) (set_readyPromise None s)
  end.

(** The promise of [prepare()] settles: the suspended execution is
    queued once. *)
Definition settle_prepare (p : nat) (o : outcome) (s : state) : state :=
  match promises s !! p with
  | Some (Pending false ws) =>
      enqueue [ResumeInitializeNext p o]
              (set_promises (<[p := Pending true ws]> (promises s)) s)
  | _ => s
  end.

Definition run_action (a : action) (s : state) : state :=
  match a with
  | Call => ensureReady s
  | Spawn script => enqueue [Script script] s
  | Settle p o => settle_prepare p o s
  end.

Definition run_script (script : list action) (s : state) : state :=
  foldl (fun s a => run_action a s) s script.

Definition run_job (j : job) (s : state) : state :=
  match j with
  | ResumeInitializeNext p o => resume_initializeNext p o s
  | ResumeEnsureReady c o => resume_ensureReady c o s
  | Script script => run_script script s
  end.

(** Runs the first microtask, if there is one. *)
Definition run_microtask (s : state) : option state :=
  match microtasks s with
  | [] => None
  | j :: q =>
      Some (run_job j (mkState (server s) (readyPromise s) (promises s)
                               (calls s) (results s) q))
  end.

(** Runs microtasks until the queue is empty, at most [fuel] of them. *)
Fixpoint drain (fuel : nat) (s : state) : state :=
  match fuel with
  | 0 => s
  | S fuel' =>
      match run_microtask s with
      | None => s
      | Some s' => drain fuel' s'
      end
  end.

(** One task of the event loop: a script, then the microtasks. *)
Definition run_task (fuel : nat) (script : list action) (s : state) : state :=
  drain fuel (run_script script s).

Definition run_tasks (fuel : nat) (scripts : list (list action)) (s : state) : state :=
  foldl (fun s script => run_task fuel script s) s scripts.

End Service.

(** Executions of [initializeNext] that have not finished. *)
Definition is_pending (pr : promise) : bool :=
  match pr with
  | Pending _ _ => true
  | Settled _ => false
  end.

Definition in_flight (s : state) : nat := length (filter is_pending (promises s)).

(** Executions of [initializeNext] started so far. *)
Definition executions (s : state) : nat := length (promises s).

(** Nothing is left to run. *)
Definition quiescent (s : state) : Prop := microtasks s = [].

(** How an execution of [initializeNext] ends when its call of [next]
    does [r] and the promise of [prepare()], if it comes to that, settles
    with [o]. *)
Definition attempt_outcome (r : next_result) (o : outcome) : outcome :=
  match r with
  | NextThrows e => Rejected e
  | NextFalsy => Rejected (mkError "Failed to initialize Next.js server")
  | NextObject => o
  end.

(** A renderer whose first preparation does [first] and whose later ones
    go well. *)
Definition first_then_ok (first : next_result) (p : nat) : next_result :=
  match p with
  | 0 => first
  | S _ => NextObject
  end.

(** A job that makes [m] calls of [ensureReady] one after the other. *)
Definition calling (m : nat) : list action := replicate m Call.

(** ** The start of [bootstrap] ([main.ts]) *)

(** How call [c] of [ensureReady] settled, if it has. *)
Definition result_of (c : nat) (s : state) : option outcome :=
  snd <$> find (fun r => Nat.eqb (fst r) c) (results s).

(** The two statements
<<
  await nextService.ensureReady();
  const handle = nextService.getRequestHandler();
>>
    where the awaited call is call [c]: [None] while the call is
    pending; the error that [bootstrap] throws, from either statement;
    or the handler it goes on to install. *)
Definition bootstrap_handle (c : nat) (s : state) : option (Error + RequestHandler) :=
  match result_of c s with
  | None => None
  | Some (Rejected e) => Some (inl e)
  | Some Fulfilled => Some (getRequestHandler s)
  end.

(** ** What holds in every state reached from a new service *)

(** Some execution of [initializeNext] ended with [o]. *)
Definition backed (s : state) (o : outcome) : Prop :=
  exists p, promises s !! p = Some (Settled o).

Section WellFormed.

Variable next : nat -> next_result.

Definition job_wf (s : state) (j : job) : Prop :=
  match j with
  | ResumeInitializeNext p _ => next p = NextObject
  | ResumeEnsureReady c o => c < calls s /\ backed s o
  | Script _ => True
  end.

Definition promise_wf (s : state) (p : nat) (pr : promise) : Prop :=
  match pr with
  | Pending _ ws => next p = NextObject /\ Forall (fun c => c < calls s) ws
  | Settled Fulfilled => next p = NextObject
  | Settled (Rejected _) => True
  end.

Record wf (s : state) : Prop := mkWf {
  wf_ready : forall p, readyPromise s = Some p -> p < executions s;
  wf_demand : executions s <= calls s;
  wf_server : forall srv, server s = Some srv ->
              made_by srv < executions s /\ next (made_by srv) = NextObject;
  wf_promises : forall p pr, promises s !! p = Some pr -> promise_wf s p pr;
  wf_results : Forall (fun r => fst r < calls s /\ backed s (snd r)) (results s);
  wf_queue : Forall (job_wf s) (microtasks s)
}.

End WellFormed.

(** [s'] has the calls and the settled promises of [s]. *)
Definition extends (s s' : state) : Prop :=
  calls s <= calls s' /\
  forall p o, promises s !! p = Some (Settled o) ->
              promises s' !! p = Some (Settled o).

(** ** Callers that only call from tasks *)

Definition is_spawn (a : action) : bool :=
  match a with
  | Spawn _ => true
  | _ => false
  end.

(** No job of the schedule queues a microtask of its own. *)
Definition from_tasks_only (scripts : list (list action)) : Prop :=
  Forall (Forall (fun a => is_spawn a = false)) scripts.

(** The calls subscribed to a promise. *)
Definition waiting (pr : promise) : nat :=
  match pr with
  | Pending _ ws => length ws
  | Settled _ => 0
  end.

(** The microtasks queued, and those that the waiters will add. *)
Definition backlog (s : state) : nat :=
  length (microtasks s) + sum_list (map waiting (promises s)).

(** A pending promise is the one recorded in [readyPromise]. *)
Definition single (s : state) : Prop :=
  forall q r ws, promises s !! q = Some (Pending r ws) -> readyPromise s = Some q.

Definition none_pending (s : state) : Prop :=
  forall q r ws, promises s !! q <> Some (Pending r ws).

(** A call is queued to resume with a rejection. *)
Definition rejection_queued (s : state) : Prop :=
  exists c e, In (ResumeEnsureReady c (Rejected e)) (microtasks s).

Definition no_scripts (s : state) : Prop :=
  forall sc, ~ In (Script sc) (microtasks s).

(** The state in which the first microtask runs: [q] is the rest of the
    queue. *)
Definition popped (s : state) (q : list job) : state :=
  mkState (server s) (readyPromise s) (promises s) (calls s) (results s) q.

(** What holds while the microtasks of such a schedule run. *)
Record draining (s : state) : Prop := mkDraining {
  dr_single : single s;
  dr_no_scripts : no_scripts s;
  dr_rejection : rejection_queued s -> none_pending s
}.

(** What holds while one of its jobs runs. *)
Record scripting (s : state) : Prop := mkScripting {
  sc_draining : draining s;
  sc_recorded : rejection_queued s -> readyPromise s <> None
}.

(** The resumptions of [initializeNext] in a queue. *)
Definition is_resumption (j : job) : bool :=
  match j with
  | ResumeInitializeNext _ _ => true
  | _ => false
  end.

Definition resumptions (q : list job) : nat :=
  length (List.filter is_resumption q).

(** What such a schedule keeps about the renderer: a running attempt
    owns [server]; a fulfilled attempt stays recorded with its renderer
    in [server]; a queued resumption belongs to a running attempt, and
    there is one at most; and no rejection is queued once an attempt was
    fulfilled. *)
Record kept (s : state) : Prop := mkKept {
  kept_running : forall p r ws, promises s !! p = Some (Pending r ws) ->
                 server s = Some (mkServer p);
  kept_ready : forall p, promises s !! p = Some (Settled Fulfilled) ->
               readyPromise s = Some p /\ server s = Some (mkServer p);
  kept_resumption : forall p o, In (ResumeInitializeNext p o) (microtasks s) ->
                    exists ws, promises s !! p = Some (Pending true ws);
  kept_one : resumptions (microtasks s) <= 1;
  kept_no_rejection : forall p, promises s !! p = Some (Settled Fulfilled) ->
                      ~ rejection_queued s
}.

(** ** Schedules in which [prepare()] never succeeds *)

Definition is_fulfilled (o : outcome) : bool :=
  match o with
  | Fulfilled => true
  | Rejected _ => false
  end.

Fixpoint never_fulfils (a : action) : bool :=
  match a with
  | Call => true
  | Spawn script => forallb never_fulfils script
  | Settle _ o => negb (is_fulfilled o)
  end.

Definition job_unready (j : job) : bool :=
  match j with
  | ResumeInitializeNext _ o => negb (is_fulfilled o)
  | ResumeEnsureReady _ o => negb (is_fulfilled o)
  | Script script => forallb never_fulfils script
  end.

Record unready (s : state) : Prop := mkUnready {
  un_promises : forall p, promises s !! p <> Some (Settled Fulfilled);
  un_results : Forall (fun r => is_fulfilled (snd r) = false) (results s);
  un_queue : Forall (fun j => job_unready j = true) (microtasks s)
}.

End Gate.

(** * The home page ([apps/frontend/app/page.tsx]) *)
Module Page.

Section Home.

(** What [res.json()] can yield, and which of these values JavaScript
    takes for true in a condition. *)
Variable value : Type.
Variable truthy : value -> bool.

(** The two [useState] cells; [apiData] is [null] until it is set. *)
Record HomeState := mkHome { apiData : option value; loading : bool }.

(** [useState(null)] and [useState(true)] *)
Definition mounted_state : HomeState := mkHome None true.

(** How [fetch("/api/status")] followed by [res.json()] ends. *)
Inductive fetched :=
| FetchRejects                            (* [fetch] rejects: no response *)
| JsonRejects (status : nat)              (* a response whose body is not JSON *)
| Parsed (status : nat) (data : value).   (* a response with a JSON body *)

(** The effect, once the promise chain has settled: the second [then]
    runs [setApiData(data); setLoading(false)], the [catch] runs
    [setLoading(false)]. *)
Definition after_fetch (f : fetched) (st : HomeState) : HomeState :=
  match f with
  | Parsed _ data => mkHome (Some data) false
  | FetchRejects | JsonRejects _ => mkHome (apiData st) false
  end.

(** The three things the status box can show. *)
Inductive box :=
| Loading                 (* "Loading..." *)
| ShowData (data : value) (* [JSON.stringify(apiData, null, 2)] *)
| ShowError.              (* "Error while loading api data" *)

(** [loading ? ... : apiData ? ... : ...] *)
Definition render (st : HomeState) : box :=
  if loading st then Loading
  else match apiData st with
       | Some data => if truthy data then ShowData data else ShowError
       | None => ShowError
       end.

End Home.

(** A body of the API as a JavaScript value: an object is true, a string
    is true unless it is empty. *)
Definition body_truthy (b : Router.body) : bool :=
  match b with
  | Router.Json _ => true
  | Router.Text s => negb (String.eqb s "")
  end.

End Page.

(** * Properties of the request router *)
Module RouterProps.
Import Router.

(** A prefix without [?] is a prefix of the request target exactly when
    it is a prefix of the path. *)
Lemma startsWith_pathname (p u : string) :
  no_query_mark p = true -> startsWith (pathname u) p = startsWith u p.
Proof.
  unfold startsWith. revert u.
  induction p as [|a p IH]; intros u Hp.
  { destruct u as [|c u]; simpl; [|destruct (Ascii.eqb c "?")]; reflexivity. }
  simpl in Hp. apply andb_prop in Hp as [Ha Hp].
  destruct u as [|c u]; [reflexivity|]. simpl.
  destruct (Ascii.eqb_spec c "?") as [->|Hc]; simpl.
  - destruct (ascii_dec a "?") as [->|]; [discriminate Ha|reflexivity].
  - destruct (ascii_dec a c); [apply IH, Hp|reflexivity].
Qed.

Lemma api_prefix_on_path (u : string) :
  startsWith (pathname u) "/api" = startsWith u "/api".
Proof. apply startsWith_pathname. reflexivity. Qed.

(** The calls of the middleware, by cases on the test it makes. *)
Lemma calls_unfold handle req res :
  calls handle req res =
    if startsWith (url req) "/api" then [CallNext None]
    else CallHandle req res ::
         match handle req res with
         | Fulfilled => []
         | Rejected e => [CallNext (Some e)]
         end.
Proof.
  unfold calls, middleware, try_catch, await_handle, next.
  change ("/" +:+ apiPrefix) with "/api".
  destruct (startsWith (url req) "/api"); [reflexivity|].
  destruct (handle req res); reflexivity.
Qed.

Lemma completion_fulfilled handle req res :
  completion handle req res = Fulfilled.
Proof.
  unfold completion, middleware, try_catch, await_handle, next.
  destruct (startsWith _ _); [reflexivity|].
  destruct (handle req res); reflexivity.
Qed.

(** The test as the middleware makes it, on characters: a request is
    passed on with [next()] exactly when its path begins with the four
    characters [/api], and then the renderer's handler is not called;
    otherwise the handler is called with [(req, res)] and [next()] is
    not called. *)
Lemma calls_by_literal_prefix handle req res :
  let api := startsWith (pathname (url req)) "/api" in
  let t := calls handle req res in
  (api_dispatched t <-> api = true) /\
  (renderer_invoked t <-> api = false) /\
  (In (CallHandle req res) t <-> api = false) /\
  (if api then t = [CallNext None]
   else exists rest, t = CallHandle req res :: rest /\ ~ In (CallNext None) rest).
Proof.
  cbv zeta. rewrite api_prefix_on_path, calls_unfold.
  unfold api_dispatched, renderer_invoked.
  destruct (startsWith (url req) "/api").
  - split; [|split; [|split]].
    + split; [reflexivity|]. intros _. now left.
    + split; [|discriminate]. intros (rq & rs & [H|[]]). discriminate H.
    + split; [|discriminate]. intros [H|[]]. discriminate H.
    + reflexivity.
  - assert (Hrest : ~ In (CallNext None)
                        match handle req res with
                        | Fulfilled => []
                        | Rejected e => [CallNext (Some e)]
                        end).
    { destruct (handle req res); simpl; [tauto|].
      intros [H|[]]. discriminate H. }
    split; [|split; [|split]].
    + split; [|discriminate]. intros [H|H]; [discriminate H|tauto].
    + split; [reflexivity|]. intros _. exists req, res. now left.
    + split; [reflexivity|]. intros _. now left.
    + eexists. split; [reflexivity|exact Hrest].
Qed.

(** A path under a prefix begins with the characters of the prefix. *)
Lemma startsWith_shorter (a b u : string) :
  startsWith u (a +:+ b) = true -> startsWith u a = true.
Proof.
  unfold startsWith. revert u.
  induction a as [|c a IH]; intros u H; [now destruct u|].
  destruct u as [|d u]; simpl in *; [discriminate H|].
  destruct (ascii_dec c d); [now apply IH|discriminate H].
Qed.

Lemma under_startsWith (prefix path : string) :
  under prefix path = true -> startsWith path prefix = true.
Proof.
  unfold under. intros H. apply orb_prop in H as [H|H].
  - apply String.eqb_eq in H as ->. unfold startsWith.
    induction prefix as [|c prefix IH]; simpl; [reflexivity|].
    destruct (ascii_dec c c); [exact IH|congruence].
  - eapply startsWith_shorter, H.
Qed.

(** C1: read by path segments, [/api-docs] does not start with [/api],
    yet the middleware treats it as API: it calls [next()] and not the
    renderer's handler.  Everywhere else the middleware does what the
    claim says: a path under [/api] gets [next()] alone, and a target
    that does not begin with the characters [/api] gets
    [handle(req, res)] and no [next()]; the requests in between, like
    [/api-docs], get [next()]. *)
Theorem C1_api_docs_classified_api handle m res :
  let req := mkRequest m "/api-docs" in
  under "/api" (pathname (url req)) = false /\
  calls handle req res = [CallNext None] /\
  ~ renderer_invoked (calls handle req res) /\
  forall req' res',
    if under "/api" (pathname (url req')) then
      calls handle req' res' = [CallNext None]
    else if startsWith (url req') "/api" then
      calls handle req' res' = [CallNext None]
    else
      In (CallHandle req' res') (calls handle req' res')
      /\ ~ api_dispatched (calls handle req' res').
Proof.
  cbv zeta. split; [reflexivity|]. split; [now rewrite calls_unfold|].
  split.
  - rewrite calls_unfold. simpl. intros (rq & rs & [H|[]]). discriminate H.
  - intros req' res'. rewrite calls_unfold.
    destruct (under "/api" (pathname (url req'))) eqn:Hu.
    + apply under_startsWith in Hu. rewrite api_prefix_on_path in Hu.
      now rewrite Hu.
    + destruct (startsWith (url req') "/api"); [reflexivity|].
      split; [now left|]. unfold api_dispatched.
      intros [H|H]; [discriminate H|].
      destruct (handle req' res'); simpl in H; [destruct H|].
      destruct H as [H|[]]. discriminate H.
Qed.

(** C2: the middleware passes [/api-docs] on with [next()] and does not
    call the renderer's handler for it, although [/api-docs] is not under
    [/api]; [/] and [/about] go to the renderer. *)
Theorem C2_api_docs_not_rendered handle m res :
  calls handle (mkRequest m "/api-docs") res = [CallNext None] /\
  ~ renderer_invoked (calls handle (mkRequest m "/api-docs") res) /\
  In (CallHandle (mkRequest m "/") res) (calls handle (mkRequest m "/") res) /\
  In (CallHandle (mkRequest m "/about") res)
     (calls handle (mkRequest m "/about") res).
Proof.
  rewrite !calls_unfold. simpl. repeat split; auto.
  intros (rq & rs & [H|[]]). discriminate H.
Qed.

(** C8, as the specification states it: [GET /] reaches the API dispatch,
    which answers with the greeting, and the renderer is not called.
    This fails. *)
Lemma C8_root_not_api :
  ~ (let req := mkRequest GET "/" in
     let t := calls (fun _ _ => Fulfilled) req (mkResponse 0) in
     api_dispatched t /\ dispatch "Hello World!" "" req = Some (Text "Hello World!")
     /\ ~ renderer_invoked t).
Proof.
  cbv zeta. rewrite calls_unfold. simpl.
  intros ([H|[]] & _). discriminate H.
Qed.

(** C8, amended: [GET /] is delegated to the renderer and no route of the
    API answers it; the greeting of [getHello] is served at [GET /api],
    which the middleware passes to the API dispatch. *)
Theorem C8_root_rendered_hello_under_api handle res hello now :
  calls handle (mkRequest GET "/") res
    = CallHandle (mkRequest GET "/") res ::
      match handle (mkRequest GET "/") res with
      | Fulfilled => []
      | Rejected e => [CallNext (Some e)]
      end /\
  ~ api_dispatched (calls handle (mkRequest GET "/") res) /\
  dispatch hello now (mkRequest GET "/") = None /\
  calls handle (mkRequest GET "/api") res = [CallNext None] /\
  dispatch hello now (mkRequest GET "/api") = Some (getHello hello) /\
  getHello hello = Text hello.
Proof.
  rewrite !calls_unfold. simpl. repeat split; auto.
  unfold api_dispatched.
  intros [H|H]; [discriminate H|].
  destruct (handle _ res); simpl in H; [destruct H|].
  destruct H as [H|[]]. discriminate H.
Qed.

(** C9: when the handler of the renderer throws or rejects with [e] on a
    frontend request, the middleware calls [next(e)], makes no other
    call, and its own promise is fulfilled. *)
Theorem C9_render_error_forwarded handle req res e :
  startsWith (url req) "/api" = false ->
  handle req res = Rejected e ->
  calls handle req res = [CallHandle req res; CallNext (Some e)] /\
  error_forwarded e (calls handle req res) /\
  completion handle req res = Fulfilled.
Proof.
  intros Hfront He. rewrite completion_fulfilled.
  unfold error_forwarded. rewrite calls_unfold, Hfront, He.
  simpl. auto.
Qed.

Lemma C9_render_error_forwarded_witness :
  let handle := fun (_ : Request) (_ : Response) => Rejected (mkError "render failed") in
  let req := mkRequest GET "/about" in
  let res := mkResponse 0 in
  startsWith (url req) "/api" = false /\
  handle req res = Rejected (mkError "render failed") /\
  calls handle req res = [CallHandle req res; CallNext (Some (mkError "render failed"))] /\
  error_forwarded (mkError "render failed") (calls handle req res) /\
  completion handle req res = Fulfilled.
Proof.
  cbv zeta. split; [reflexivity|]. split; [reflexivity|].
  apply (C9_render_error_forwarded
           (fun _ _ => Rejected (mkError "render failed"))
           (mkRequest GET "/about") (mkResponse 0) (mkError "render failed"));
    reflexivity.
Defined.

End RouterProps.

(** * Properties of the readiness gate *)
Module GateProps.
Import Gate.

Section Loop.

Variable next : nat -> next_result.

Lemma drain_quiescent fuel s : quiescent s -> drain next fuel s = s.
Proof.
  unfold quiescent. intros Hq.
  destruct fuel; simpl; [reflexivity|].
  unfold run_microtask. now rewrite Hq.
Qed.

End Loop.

(** Runs a schedule whose actions are known. *)
Ltac run_loop :=
  cbv zeta; unfold run_tasks, run_task;
  repeat (progress (simpl; rewrite ?drain_quiescent by reflexivity)).

(** ** Calls of [ensureReady] that meet the same attempt *)
Section SingleFlight.

Variable next : nat -> next_result.

Lemma lookup_snoc {A} (l : list A) (x : A) : (l ++ [x]) !! length l = Some x.
Proof. now apply list_lookup_middle. Qed.

Lemma insert_snoc {A} (l : list A) (x y : A) :
  <[length l := y]> (l ++ [x]) = l ++ [y].
Proof.
  rewrite insert_app_r_alt by lia.
  now replace (length l - length l) with 0 by lia.
Qed.

(** The resumptions of the waiters run one after the other. *)
Lemma drain_resumes o ws : forall fuel sv rp ps cs rs,
  length ws <= fuel ->
  drain next fuel
    (mkState sv rp ps cs rs (map (fun c => ResumeEnsureReady c o) ws))
  = mkState sv
      match ws, o with
      | _ :: _, Rejected _ => None
      | _, _ => rp
      end
      ps cs (rs ++ map (fun c => (c, o)) ws) [].
Proof.
  induction ws as [|c ws IH]; intros fuel sv rp ps cs rs Hfuel.
  - rewrite drain_quiescent by reflexivity. simpl. now rewrite app_nil_r.
  - destruct fuel as [|fuel]; [simpl in Hfuel; lia|].
    simpl in Hfuel. simpl. unfold run_microtask. simpl.
    destruct o as [|e]; unfold resume_ensureReady, record_result,
      set_readyPromise; simpl;
      rewrite IH by lia; rewrite <- app_assoc; simpl;
      destruct ws; reflexivity.
Qed.

(** A call that finds an attempt recorded and pending subscribes. *)
Lemma ensureReady_pending s p r ws :
  readyPromise s = Some p ->
  promises s !! p = Some (Pending r ws) ->
  ensureReady next s
  = mkState (server s) (Some p)
      (<[p := Pending r (ws ++ [calls s])]> (promises s))
      (S (calls s)) (results s) (microtasks s).
Proof.
  destruct s as [sv rp ps cs rs q]. simpl. intros -> Hp.
  unfold ensureReady, await_readyPromise. simpl. now rewrite Hp.
Qed.

Lemma calling_pending m : forall s p r ws,
  readyPromise s = Some p ->
  promises s !! p = Some (Pending r ws) ->
  run_script next (calling m) s
  = mkState (server s) (Some p)
      (<[p := Pending r (ws ++ seq (calls s) m)]> (promises s))
      (calls s + m) (results s) (microtasks s).
Proof.
  induction m as [|m IH]; intros s p r ws Hrp Hp.
  - destruct s as [sv rp ps cs rs q]. simpl in *. subst rp.
    rewrite app_nil_r, list_insert_id by exact Hp.
    now replace (cs + 0) with cs by lia.
  - change (run_script next (calling (S m)) s)
      with (run_script next (calling m) (ensureReady next s)).
    rewrite (ensureReady_pending s p r ws Hrp Hp).
    rewrite (IH _ p r (ws ++ [calls s])); simpl.
    + rewrite list_insert_insert_eq, <- app_assoc. simpl.
      f_equal. lia.
    + reflexivity.
    + apply list_lookup_insert_eq. eapply lookup_lt_Some, Hp.
Qed.

(** A call that finds a settled attempt still recorded resumes in a
    later microtask. *)
Lemma ensureReady_settled s p o :
  readyPromise s = Some p ->
  promises s !! p = Some (Settled o) ->
  ensureReady next s
  = mkState (server s) (Some p) (promises s) (S (calls s)) (results s)
      (microtasks s ++ [ResumeEnsureReady (calls s) o]).
Proof.
  destruct s as [sv rp ps cs rs q]. simpl. intros -> Hp.
  unfold ensureReady, await_readyPromise. simpl. now rewrite Hp.
Qed.

Lemma calling_settled m : forall s p o,
  readyPromise s = Some p ->
  promises s !! p = Some (Settled o) ->
  run_script next (calling m) s
  = mkState (server s) (Some p) (promises s) (calls s + m) (results s)
      (microtasks s ++ map (fun c => ResumeEnsureReady c o) (seq (calls s) m)).
Proof.
  induction m as [|m IH]; intros s p o Hrp Hp.
  - destruct s as [sv rp ps cs rs q]. simpl in *. subst rp.
    rewrite app_nil_r. now replace (cs + 0) with cs by lia.
  - change (run_script next (calling (S m)) s)
      with (run_script next (calling m) (ensureReady next s)).
    rewrite (ensureReady_settled s p o Hrp Hp).
    rewrite (IH _ p o); simpl; [|reflexivity|exact Hp].
    rewrite <- app_assoc. simpl. f_equal. lia.
Qed.

(** The first call in a state without a recorded attempt. *)
Lemma ensureReady_idle s :
  readyPromise s = None ->
  let p := length (promises s) in
  ensureReady next s
  = match next p with
    | NextObject =>
        mkState (Some (mkServer p)) (Some p)
          (promises s ++ [Pending false [calls s]])
          (S (calls s)) (results s) (microtasks s)
    | r =>
        mkState None (Some p)
          (promises s ++ [Settled (attempt_outcome r Fulfilled)])
          (S (calls s)) (results s)
          (microtasks s ++ [ResumeEnsureReady (calls s) (attempt_outcome r Fulfilled)])
    end.
Proof.
  destruct s as [sv rp ps cs rs q]. simpl. intros ->.
  unfold ensureReady, initializeNext, initializeNext_try. simpl.
  destruct (next (length ps)); simpl;
    unfold await_readyPromise; simpl; rewrite lookup_snoc;
    try reflexivity.
  unfold set_promises. simpl. now rewrite insert_snoc.
Qed.

(** Later jobs whose calls all find the attempt pending. *)
Lemma tasks_pending fuel later : forall s p r ws,
  quiescent s ->
  readyPromise s = Some p ->
  promises s !! p = Some (Pending r ws) ->
  run_tasks next fuel (map calling later) s
  = mkState (server s) (Some p)
      (<[p := Pending r (ws ++ seq (calls s) (sum_list later))]> (promises s))
      (calls s + sum_list later) (results s) [].
Proof.
  induction later as [|m later IH]; intros s p r ws Hq Hrp Hp.
  - destruct s as [sv rp ps cs rs q]. unfold quiescent in Hq.
    simpl in *. subst rp q.
    rewrite app_nil_r, list_insert_id by exact Hp.
    now replace (cs + 0) with cs by lia.
  - change (run_tasks next fuel (map calling (m :: later)) s)
      with (run_tasks next fuel (map calling later)
              (drain next fuel (run_script next (calling m) s))).
    rewrite (calling_pending m s p r ws Hrp Hp).
    rewrite drain_quiescent by exact Hq.
    rewrite (IH _ p r (ws ++ seq (calls s) m)); simpl.
    + rewrite list_insert_insert_eq, <- app_assoc, <- seq_app.
      f_equal. lia.
    + exact Hq.
    + reflexivity.
    + apply list_lookup_insert_eq. eapply lookup_lt_Some, Hp.
Qed.

(** The calls of the first job and of the later jobs, while the
    promise of [prepare()] is pending: one execution, every caller
    subscribed to its promise. *)
Lemma calls_while_preparing fuel n later s :
  readyPromise s = None ->
  quiescent s ->
  next (length (promises s)) = NextObject ->
  run_tasks next fuel (map calling (S n :: later)) s
  = mkState (Some (mkServer (length (promises s))))
      (Some (length (promises s)))
      (promises s ++ [Pending false (seq (calls s) (S n + sum_list later))])
      (calls s + (S n + sum_list later)) (results s) [].
Proof.
  intros Hrp Hq Hnext.
  change (run_tasks next fuel (map calling (S n :: later)) s)
    with (run_tasks next fuel (map calling later)
            (drain next fuel
               (run_script next (calling n) (ensureReady next s)))).
  pose proof (ensureReady_idle s Hrp) as Hfirst. cbv zeta in Hfirst.
  rewrite Hnext in Hfirst. rewrite Hfirst. clear Hfirst.
  unfold quiescent in Hq. rewrite Hq.
  rewrite (calling_pending n _ (length (promises s)) false [calls s]);
    [|reflexivity|apply lookup_snoc].
  rewrite drain_quiescent by reflexivity.
  rewrite (tasks_pending fuel later _ (length (promises s)) false
             ([calls s] ++ seq (S (calls s)) n));
    [|reflexivity|reflexivity|simpl; rewrite insert_snoc; apply lookup_snoc].
  simpl. rewrite !insert_snoc.
  change (calls s :: seq (S (calls s)) n ++ seq (S (calls s + n)) (sum_list later))
    with (seq (calls s) (S n) ++ seq (S (calls s + n)) (sum_list later)).
  replace (S (calls s + n)) with (calls s + S n) by lia.
  rewrite <- seq_app. f_equal. lia.
Qed.

(** The promise of [prepare()] settles: [initializeNext] resumes, then
    each waiter. *)
Lemma settle_while_preparing fuel o sv ps ws cs rs :
  length ws <= fuel ->
  run_task next (S fuel) [Settle (length ps) o]
    (mkState sv (Some (length ps)) (ps ++ [Pending false ws]) cs rs [])
  = mkState
      match o with Fulfilled => sv | Rejected _ => None end
      match ws, o with
      | _ :: _, Rejected _ => None
      | _, _ => Some (length ps)
      end
      (ps ++ [Settled o]) cs (rs ++ map (fun c => (c, o)) ws) [].
Proof.
  intros Hfuel. unfold run_task, run_script. simpl.
  unfold settle_prepare. simpl. rewrite lookup_snoc.
  unfold run_microtask. simpl. rewrite insert_snoc.
  destruct o as [|e]; simpl; unfold settle; simpl;
    rewrite lookup_snoc, insert_snoc;
    unfold enqueue, set_promises; simpl;
    now rewrite drain_resumes by exact Hfuel.
Qed.

(** Settling the promise of [prepare()] of an execution that has
    finished does nothing. *)
Lemma settle_after_end fuel o out sv rp ps cs rs :
  run_task next fuel [Settle (length ps) o]
    (mkState sv rp (ps ++ [Settled out]) cs rs [])
  = mkState sv rp (ps ++ [Settled out]) cs rs [].
Proof.
  unfold run_task, run_script. simpl.
  unfold settle_prepare. simpl. rewrite lookup_snoc.
  now rewrite drain_quiescent.
Qed.

(** The calls of one job when [next] throws or returns a falsy value:
    the promise of [initializeNext] is born rejected, every call of the
    job finds it recorded, and all of them reject. *)
Lemma calls_when_next_fails fuel n s :
  readyPromise s = None ->
  quiescent s ->
  next (length (promises s)) <> NextObject ->
  S n <= fuel ->
  let out := attempt_outcome (next (length (promises s))) Fulfilled in
  out <> Fulfilled /\
  run_tasks next fuel [calling (S n)] s
  = mkState None None (promises s ++ [Settled out]) (calls s + S n)
      (results s ++ map (fun c => (c, out)) (seq (calls s) (S n))) [].
Proof.
  intros Hrp Hq Hnext Hfuel. cbv zeta.
  change (run_tasks next fuel [calling (S n)] s)
    with (drain next fuel
            (run_script next (calling n) (ensureReady next s))).
  pose proof (ensureReady_idle s Hrp) as Hfirst. cbv zeta in Hfirst.
  unfold quiescent in Hq. rewrite Hq in Hfirst. simpl in Hfirst.
  set (out := attempt_outcome (next (length (promises s))) Fulfilled).
  assert (Hout : exists e, out = Rejected e).
  { subst out. destruct (next (length (promises s))); simpl; eauto.
    now destruct Hnext. }
  assert (Hstate : ensureReady next s
                   = mkState None (Some (length (promises s)))
                       (promises s ++ [Settled out]) (S (calls s))
                       (results s) [ResumeEnsureReady (calls s) out]).
  { rewrite Hfirst. subst out.
    destruct (next (length (promises s))); try reflexivity.
    now destruct Hnext. }
  destruct Hout as [e He]. split; [rewrite He; discriminate|].
  rewrite Hstate.
  rewrite (calling_settled n _ (length (promises s)) out);
    [|reflexivity|apply lookup_snoc].
  simpl.
  change (ResumeEnsureReady (calls s) out
            :: map (fun c => ResumeEnsureReady c out) (seq (S (calls s)) n))
    with (map (fun c => ResumeEnsureReady c out) (seq (calls s) (S n))).
  rewrite drain_resumes by (rewrite length_seq; exact Hfuel).
  rewrite He. simpl. f_equal. lia.
Qed.

End SingleFlight.

(** X16: from a state with no attempt recorded and nothing queued, a
    job makes one or more calls of [ensureReady] itself and later jobs
    make more while the promise of [prepare()] is pending.  These calls
    execute [initializeNext] once; when that attempt ends, all of them
    settle alike, in call order: all fulfilled, or all rejected with
    the same error. *)
Theorem calls_share_one_attempt
    (next : nat -> next_result) (s : state) (n : nat) (later : list nat)
    (o : outcome) (fuel : nat) :
  let p := executions s in
  let N := S n + sum_list later in
  let out := attempt_outcome (next p) o in
  let s1 := run_tasks next (N + fuel) (map calling (S n :: later)) s in
  let s2 := run_task next (S (N + fuel)) [Settle p o] s1 in
  readyPromise s = None ->
  quiescent s ->
  next p = NextObject \/ later = [] ->
  executions s1 = S p /\
  match next p with
  | NextObject =>
      readyPromise s1 = Some p /\
      promises s1 !! p = Some (Pending false (seq (calls s) N)) /\
      in_flight s1 = S (in_flight s)
  | _ =>
      promises s1 !! p = Some (Settled out) /\
      in_flight s1 = in_flight s
  end /\
  executions s2 = S p /\
  promises s2 !! p = Some (Settled out) /\
  calls s2 = calls s + N /\
  results s2 = results s ++ map (fun c => (c, out)) (seq (calls s) N) /\
  quiescent s2.
Proof.
  cbv zeta. unfold executions, in_flight, quiescent. intros Hrp Hq Hcase.
  assert (Hdec : next (length (promises s)) = NextObject
                 \/ next (length (promises s)) <> NextObject).
  { destruct (next (length (promises s))); auto; right; discriminate. }
  destruct Hdec as [Hobj|Hfail].
  - rewrite (calls_while_preparing next _ n later s Hrp Hq Hobj).
    rewrite settle_while_preparing by (rewrite length_seq; lia).
    rewrite Hobj. simpl.
    rewrite !length_app, !filter_app, !length_app, !lookup_snoc. simpl.
    repeat split; lia.
  - destruct Hcase as [Hobj| ->]; [contradiction|].
    destruct (calls_when_next_fails next (S n + 0 + fuel) n s Hrp Hq Hfail)
      as [Hout Hs1]; [lia|].
    cbv zeta in Hout, Hs1. simpl sum_list. change (map calling [S n]) with [calling (S n)].
    rewrite Hs1, settle_after_end. simpl.
    rewrite !length_app, !filter_app, !length_app, !lookup_snoc. simpl.
    replace (n + 0) with n by lia.
    destruct (next (length (promises s))) eqn:Hn; try contradiction;
      simpl; repeat split; lia.
Qed.

Lemma calls_share_one_attempt_witness :
  let next := fun _ : nat => NextObject in
  let s1 := run_tasks next 3 [calling 2; calling 1] fresh in
  let s2 := run_task next 4 [Settle 0 Fulfilled] s1 in
  readyPromise fresh = None /\
  quiescent fresh /\
  (next 0 = NextObject \/ [1] = @nil nat) /\
  executions s2 = 1 /\
  results s2 = [(0, Fulfilled); (1, Fulfilled); (2, Fulfilled)].
Proof.
  cbv zeta.
  split; [reflexivity|]. split; [reflexivity|]. split; [left; reflexivity|].
  destruct (calls_share_one_attempt
              (fun _ => NextObject) fresh 1 [1] Fulfilled 0
              eq_refl eq_refl (or_introl eq_refl))
    as (_ & _ & Hexec & _ & _ & Hres & _).
  split; [exact Hexec|exact Hres].
Defined.

(** C3: three calls of [ensureReady] made within one task before any
    preparation has succeeded, one of them from a queued microtask,
    with a [next] that throws once.  [initializeNext] is executed twice,
    not once; the two calls that met the first attempt reject and the
    third awaits a second attempt and resolves with it.  A call made
    while that second attempt is in flight does not join it: it starts
    a third execution. *)
Theorem C3_concurrent_calls_two_attempts (fuel : nat) (e : Error) :
  let next := first_then_ok (NextThrows e) in
  let s1 := run_task next (3 + fuel) [Call; Spawn [Call]; Call] fresh in
  let s2 := run_task next (3 + fuel) [Settle 1 Fulfilled] s1 in
  let s3 := run_task next (3 + fuel) [Call] s1 in
  calls s1 = 3 /\
  executions s1 = 2 /\
  results s1 = [(0, Rejected e); (1, Rejected e)] /\
  promises s1 = [Settled (Rejected e); Pending false [2]] /\
  quiescent s1 /\
  results s2 = [(0, Rejected e); (1, Rejected e); (2, Fulfilled)] /\
  executions s3 = 3 /\
  promises s3 = [Settled (Rejected e); Pending false [2]; Pending false [3]].
Proof.
  run_loop. repeat split.
Qed.

(** C10: [getNextServer()] returns the renderer exactly when the
    [server] field is set and otherwise throws "Next.js was not
    initialized yet"; it fails exactly when [getRequestHandler()] fails,
    with the same error. *)
Theorem C10_getNextServer_contract (s : state) :
  (forall srv, getNextServer s = inr srv <-> server s = Some srv) /\
  (getNextServer s = inl uninitialized <-> server s = None) /\
  (forall err, getNextServer s = inl err <-> getRequestHandler s = inl err) /\
  (forall srv, getNextServer s = inr srv <-> getRequestHandler s = inr (HandlerOf srv)) /\
  message uninitialized = "Next.js was not initialized yet"%string.
Proof.
  unfold getNextServer, getRequestHandler.
  destruct (server s) as [srv0|];
    (split; [|split; [|split; [|split]]]); try reflexivity;
    try (intros x); split; intros H; try discriminate H; try reflexivity;
    try (injection H as <-; reflexivity); try exact H.
Qed.

(** C6: while the first preparation is still in flight, and no call of
    [ensureReady] has completed, [getRequestHandler()] does not throw: it
    returns the handler of the unprepared renderer. *)
Theorem C6_handler_returned_while_preparing (fuel : nat) :
  let s := run_task (fun _ => NextObject) fuel [Call] fresh in
  getRequestHandler s = inr (HandlerOf (mkServer 0)) /\
  promises s = [Pending false [0]] /\
  in_flight s = 1 /\
  results s = [].
Proof.
  run_loop. repeat split.
Qed.

(** C7: the [server] field is set as soon as [initializeNext] has called
    [next], while the preparation is still running and none has
    succeeded; once the preparation has failed and the failure has
    reached the caller, the field is [null] again. *)
Theorem C7_server_set_while_preparing (fuel : nat) (e : Error) :
  let s1 := run_task (fun _ => NextObject) (2 + fuel) [Call] fresh in
  let s2 := run_task (fun _ => NextObject) (2 + fuel) [Settle 0 (Rejected e)] s1 in
  server s1 = Some (mkServer 0) /\
  in_flight s1 = 1 /\
  results s1 = [] /\
  server s2 = None /\
  results s2 = [(0, Rejected e)].
Proof.
  run_loop. repeat split.
Qed.

(** C5: two executions of [initializeNext] in flight at once.  The first
    attempt fails; a second caller has joined it before the first
    caller's cleanup ran; a retry starts a new attempt between the two
    cleanups; the second cleanup then clears the record of the new
    attempt, and the next call starts another one beside it. *)
Theorem C5_two_preparations_in_flight (fuel : nat) (e : Error) :
  let next := first_then_ok (NextThrows e) in
  let s1 := run_task next (3 + fuel) [Call; Spawn [Call]; Call] fresh in
  let s2 := run_task next (3 + fuel) [Call] s1 in
  quiescent s1 /\
  promises s1 = [Settled (Rejected e); Pending false [2]] /\
  readyPromise s1 = None /\
  quiescent s2 /\
  promises s2 = [Settled (Rejected e); Pending false [2]; Pending false [3]] /\
  in_flight s2 = 2.
Proof.
  run_loop. repeat split.
Qed.

(** The same with a first attempt that fails in [prepare()]: the second
    caller joins after the promise of [initializeNext] was rejected and
    before the first caller resumed. *)
Lemma two_preparations_after_prepare_failure (fuel : nat) (e : Error) :
  let next := fun _ : nat => NextObject in
  let s := run_tasks next (6 + fuel)
             [ [Call];
               [Settle 0 (Rejected e); Spawn [Spawn [Call]]; Spawn [Call]];
               [Call] ] fresh in
  quiescent s /\ in_flight s = 2.
Proof.
  run_loop. repeat split.
Qed.

(** C4: whichever way the first preparation fails, the first call of
    [ensureReady] rejects and leaves [readyPromise] cleared; a later call
    starts a second preparation and resolves when that one succeeds. *)
Theorem C4_retry_after_failure (first : next_result) (e : Error) (fuel : nat) :
  let next := first_then_ok first in
  let failed := attempt_outcome first (Rejected e) in
  let s1 := run_tasks next (2 + fuel) [[Call]; [Settle 0 (Rejected e)]] fresh in
  let s2 := run_tasks next (2 + fuel) [[Call]; [Settle 1 Fulfilled]] s1 in
  failed <> Fulfilled /\
  results s1 = [(0, failed)] /\
  readyPromise s1 = None /\ server s1 = None /\ executions s1 = 1 /\
  quiescent s1 /\
  results s2 = [(0, failed); (1, Fulfilled)] /\
  executions s2 = 2 /\ in_flight s2 = 0 /\
  readyPromise s2 = Some 1 /\ server s2 = Some (mkServer 1) /\
  quiescent s2.
Proof.
  destruct first as [e0| |]; run_loop; repeat split; discriminate.
Qed.

End GateProps.

(** * Further properties of the request router and of the API routes *)
Module RouterMore.
Import Router.

Lemma startsWith_iff_append (p u : string) :
  startsWith u p = true <-> exists rest, u = p +:+ rest.
Proof.
  unfold startsWith. revert u.
  induction p as [|a p IH]; intros u.
  - split; [intros _; now exists u|intros _; now destruct u].
  - destruct u as [|c u]; simpl.
    + split; [discriminate|intros [rest H]; discriminate H].
    + destruct (ascii_dec a c) as [->|Hac].
      * rewrite IH. split; intros [rest H]; exists rest.
        -- now rewrite H.
        -- now injection H.
      * split; [discriminate|].
        intros [rest H]. injection H as H1 _. now destruct Hac.
Qed.

Lemma pathname_before_query (p query : string) :
  no_query_mark p = true -> pathname (p +:+ String "?" query) = p.
Proof.
  induction p as [|a p IH]; intros Hp; [reflexivity|].
  simpl in Hp. apply andb_prop in Hp as [Ha Hp]. simpl.
  destruct (Ascii.eqb a "?"); [discriminate Ha|]. now rewrite IH.
Qed.

Lemma middleware_cases handle req res :
  middleware handle req res =
    if startsWith (url req) "/api" then ([CallNext None], inr tt)
    else match handle req res with
         | Fulfilled => ([CallHandle req res], inr tt)
         | Rejected e => ([CallHandle req res; CallNext (Some e)], inr tt)
         end.
Proof.
  unfold middleware, try_catch, await_handle, next.
  change ("/" +:+ apiPrefix) with "/api".
  destruct (startsWith (url req) "/api"); [reflexivity|].
  destruct (handle req res); reflexivity.
Qed.

(** X1: whatever the handler of the renderer does, the middleware ends
    in one of three ways, and its own promise is fulfilled in each:
    [next()] alone; [handle(req, res)] alone; or [handle(req, res)]
    followed by [next(e)] with the error the handler threw.  So [next]
    and [handle] are each called at most once per request and nothing
    follows a call of [next]. *)
Theorem middleware_three_behaviours handle req res :
  completion handle req res = Fulfilled /\
  (calls handle req res = [CallNext None] \/
   (calls handle req res = [CallHandle req res]
    /\ handle req res = Fulfilled) \/
   (exists e, calls handle req res = [CallHandle req res; CallNext (Some e)]
              /\ handle req res = Rejected e)).
Proof.
  unfold completion, calls. rewrite middleware_cases.
  destruct (startsWith (url req) "/api"); [simpl; auto|].
  destruct (handle req res) as [|e]; simpl; eauto 6.
Qed.

(** X2: the query string never changes who serves a request: two
    requests with the same path are both passed to the API dispatch or
    both handed to the renderer. *)
Theorem routing_ignores_query handle handle' r1 r2 res1 res2 :
  pathname (url r1) = pathname (url r2) ->
  (api_dispatched (calls handle r1 res1)
   <-> api_dispatched (calls handle' r2 res2)) /\
  (renderer_invoked (calls handle r1 res1)
   <-> renderer_invoked (calls handle' r2 res2)).
Proof.
  intros Hpath.
  assert (Htest : startsWith (url r1) "/api" = startsWith (url r2) "/api").
  { rewrite <- (RouterProps.api_prefix_on_path (url r1)),
            <- (RouterProps.api_prefix_on_path (url r2)).
    now rewrite Hpath. }
  unfold calls, api_dispatched, renderer_invoked.
  rewrite !middleware_cases, Htest.
  destruct (startsWith (url r2) "/api").
  - simpl. split; [tauto|].
    split; intros (rq & rs & [H|[]]); discriminate H.
  - split.
    + destruct (handle r1 res1), (handle' r2 res2); simpl;
        split; intros H; exfalso;
        repeat (destruct H as [H|H]; try discriminate H); exact H.
    + split; intros _.
      * exists r2, res2. destruct (handle' r2 res2); now left.
      * exists r1, res1. destruct (handle r1 res1); now left.
Qed.

Lemma routing_ignores_query_witness :
  let h := fun (_ : Request) (_ : Response) => Fulfilled in
  let r1 := mkRequest GET "/about?tab=team" in
  let r2 := mkRequest POST "/about" in
  pathname (url r1) = pathname (url r2) /\
  (api_dispatched (calls h r1 (mkResponse 0))
   <-> api_dispatched (calls h r2 (mkResponse 1))) /\
  (renderer_invoked (calls h r1 (mkResponse 0))
   <-> renderer_invoked (calls h r2 (mkResponse 1))).
Proof.
  cbv zeta. split; [reflexivity|].
  apply (routing_ignores_query (fun _ _ => Fulfilled) (fun _ _ => Fulfilled)
           (mkRequest GET "/about?tab=team") (mkRequest POST "/about")).
  reflexivity.
Defined.

(** X3: the requests passed to the API dispatch are exactly those whose
    target is the four characters [/api] followed by anything at all,
    whatever the method: a slash, a query, or more letters. *)
Theorem api_iff_literal_prefix handle req res :
  calls handle req res = [CallNext None]
  <-> exists rest, url req = "/api" +:+ rest.
Proof.
  rewrite <- startsWith_iff_append.
  unfold calls. rewrite middleware_cases.
  destruct (startsWith (url req) "/api").
  - split; reflexivity.
  - split; [|discriminate].
    destruct (handle req res); simpl; discriminate.
Qed.

(** X4: every route of [AppController], asked for with its method and
    any query string, is passed on by the middleware with [next()] and
    answered by the API dispatch with the body of its method. *)
Theorem controller_routes_reachable handle hello now r query res :
  In r (AppController hello now) ->
  calls handle (request_for r query) res = [CallNext None] /\
  dispatch hello now (request_for r query) = Some (r_body r).
Proof.
  intros Hr.
  assert (Hpath : pathname (url (request_for r query)) = mounted r).
  { unfold request_for. cbn [url]. apply pathname_before_query.
    destruct Hr as [<-|[<-|[]]]; reflexivity. }
  split.
  - apply api_iff_literal_prefix. unfold request_for. cbn [url].
    destruct Hr as [<-|[<-|[]]].
    + now exists (String "?" query).
    + now exists ("/status" +:+ String "?" query).
  - unfold dispatch, AppController. cbn [find]. unfold matches.
    rewrite Hpath. unfold request_for. cbn [method].
    destruct Hr as [<-|[<-|[]]]; reflexivity.
Qed.

Lemma controller_routes_reachable_witness :
  let r := mkRoute GET "status" (getStatus "2024-01-01T00:00:00.000Z") in
  In r (AppController "Hello World!" "2024-01-01T00:00:00.000Z") /\
  calls (fun _ _ => Fulfilled) (request_for r "verbose=1") (mkResponse 0)
    = [CallNext None] /\
  dispatch "Hello World!" "2024-01-01T00:00:00.000Z" (request_for r "verbose=1")
    = Some (r_body r).
Proof.
  cbv zeta. split; [right; left; reflexivity|].
  apply (controller_routes_reachable (fun _ _ => Fulfilled) "Hello World!"
           "2024-01-01T00:00:00.000Z").
  right; left; reflexivity.
Defined.

(** X5: no route of [AppController] answers a request whose method is
    not [GET], whatever its target. *)
Theorem api_answers_only_get hello now req :
  method req <> GET -> dispatch hello now req = None.
Proof.
  intros Hm. unfold dispatch. cbn [find AppController].
  unfold matches. cbn [r_method].
  destruct (method req); [now destruct Hm|reflexivity..].
Qed.

Lemma api_answers_only_get_witness :
  method (mkRequest POST "/api/status") <> GET /\
  dispatch "Hello World!" "" (mkRequest POST "/api/status") = None.
Proof.
  split; [discriminate|].
  apply (api_answers_only_get "Hello World!" "" (mkRequest POST "/api/status")).
  discriminate.
Defined.

End RouterMore.

(** * Further properties of the readiness gate *)
Module GateMore.
Import Gate GateProps.

Section AfterTheAttempt.

Variable next : nat -> next_result.

(** The state once the attempt that [S n + sum_list later] calls share
    has ended and every call has resumed. *)
Lemma attempt_end_state (s : state) (n : nat) (later : list nat)
    (o : outcome) (fuel : nat) :
  let p := executions s in
  let N := S n + sum_list later in
  let out := attempt_outcome (next p) o in
  readyPromise s = None ->
  quiescent s ->
  next p = NextObject \/ later = [] ->
  run_task next (S (N + fuel)) [Settle p o]
    (run_tasks next (N + fuel) (map calling (S n :: later)) s)
  = mkState
      match out with Fulfilled => Some (mkServer p) | Rejected _ => None end
      match out with Fulfilled => Some p | Rejected _ => None end
      (promises s ++ [Settled out]) (calls s + N)
      (results s ++ map (fun c => (c, out)) (seq (calls s) N)) [].
Proof.
  cbv zeta. unfold executions. intros Hrp Hq Hcase.
  assert (Hdec : next (length (promises s)) = NextObject
                 \/ next (length (promises s)) <> NextObject).
  { destruct (next (length (promises s))); auto; right; discriminate. }
  destruct Hdec as [Hobj|Hfail].
  - rewrite (calls_while_preparing next _ n later s Hrp Hq Hobj).
    rewrite settle_while_preparing by (rewrite length_seq; lia).
    rewrite Hobj. simpl. destruct o; reflexivity.
  - destruct Hcase as [Hobj| ->]; [contradiction|].
    destruct (calls_when_next_fails next (S n + 0 + fuel) n s Hrp Hq Hfail)
      as [Hout Hs1]; [lia|].
    cbv zeta in Hout, Hs1.
    change (map calling [S n]) with [calling (S n)].
    change (sum_list []) with 0.
    rewrite Hs1, settle_after_end.
    replace (S n + 0) with (S n) by lia.
    destruct (next (length (promises s))); try contradiction; reflexivity.
Qed.

(** Resumptions after a fulfilled attempt only record results. *)
Lemma drain_resumes_fulfilled ws fuel sv rp ps cs rs :
  length ws <= fuel ->
  drain next fuel
    (mkState sv rp ps cs rs (map (fun c => ResumeEnsureReady c Fulfilled) ws))
  = mkState sv rp ps cs (rs ++ map (fun c => (c, Fulfilled)) ws) [].
Proof.
  intros Hfuel. rewrite drain_resumes by exact Hfuel. now destruct ws.
Qed.

(** Calls made once a fulfilled attempt is recorded. *)
Lemma tasks_after_success fuel jobs : forall sv p ps cs rs,
  ps !! p = Some (Settled Fulfilled) ->
  Forall (fun m => m <= fuel) jobs ->
  run_tasks next fuel (map calling jobs) (mkState sv (Some p) ps cs rs [])
  = mkState sv (Some p) ps (cs + sum_list jobs)
      (rs ++ map (fun c => (c, Fulfilled)) (seq cs (sum_list jobs))) [].
Proof.
  induction jobs as [|m jobs IH]; intros sv p ps cs rs Hp Hfuel.
  - simpl. rewrite app_nil_r. f_equal. lia.
  - apply Forall_cons in Hfuel as [Hm Hfuel].
    change (run_tasks next fuel (map calling (m :: jobs)) ?s)
      with (run_tasks next fuel (map calling jobs)
              (drain next fuel (run_script next (calling m) s))).
    rewrite (calling_settled next m _ p Fulfilled) by (reflexivity || exact Hp).
    cbn [server readyPromise promises calls results microtasks app].
    rewrite drain_resumes_fulfilled by (rewrite length_seq; exact Hm).
    rewrite IH by assumption.
    cbn [sum_list]. rewrite seq_app, map_app, <- app_assoc.
    f_equal. unfold id. lia.
Qed.

End AfterTheAttempt.

(** X6: once a fulfilled attempt is recorded, further calls of
    [ensureReady], in any number of jobs, never execute [initializeNext]
    again and never touch [server] or [readyPromise]; every one of them
    resolves, in call order. *)
Theorem ready_is_kept next (s : state) (p : nat) (jobs : list nat) (fuel : nat) :
  let s' := run_tasks next fuel (map calling jobs) s in
  quiescent s ->
  readyPromise s = Some p ->
  promises s !! p = Some (Settled Fulfilled) ->
  Forall (fun m => m <= fuel) jobs ->
  promises s' = promises s /\
  server s' = server s /\
  readyPromise s' = Some p /\
  calls s' = calls s + sum_list jobs /\
  results s'
    = results s ++ map (fun c => (c, Fulfilled)) (seq (calls s) (sum_list jobs)) /\
  quiescent s'.
Proof.
  cbv zeta. destruct s as [sv rp ps cs rs q]. unfold quiescent. simpl.
  intros -> -> Hp Hfuel.
  rewrite (tasks_after_success next fuel jobs sv p ps cs rs Hp Hfuel).
  repeat split.
Qed.

Lemma ready_is_kept_witness :
  let next := fun _ : nat => NextObject in
  let s := run_tasks next 2 [[Call]; [Settle 0 Fulfilled]] fresh in
  let s' := run_tasks next 2 (map calling [2; 1]) s in
  quiescent s /\
  readyPromise s = Some 0 /\
  promises s !! 0 = Some (Settled Fulfilled) /\
  Forall (fun m => m <= 2) [2; 1] /\
  executions s' = 1 /\
  results s' = [(0, Fulfilled); (1, Fulfilled); (2, Fulfilled); (3, Fulfilled)].
Proof.
  cbv zeta.
  split; [reflexivity|]. split; [reflexivity|]. split; [reflexivity|].
  split; [repeat constructor|].
  destruct (ready_is_kept (fun _ => NextObject)
              (run_tasks (fun _ => NextObject) 2 [[Call]; [Settle 0 Fulfilled]] fresh)
              0 [2; 1] 2 eq_refl eq_refl eq_refl)
    as (Hps & _ & _ & _ & Hres & _).
  - repeat constructor.
  - split; [unfold executions; now rewrite Hps|exact Hres].
Defined.

(** X7: when the attempt shared by the calls has ended and the calls
    have resumed: after a success [server] holds the renderer of that
    attempt, the attempt stays recorded and both getters return; after a
    failure of any kind [server] and [readyPromise] are [null] and both
    getters throw "Next.js was not initialized yet". *)
Theorem getters_after_attempt next (s : state) (n : nat) (later : list nat)
    (o : outcome) (fuel : nat) :
  let p := executions s in
  let N := S n + sum_list later in
  let s2 := run_task next (S (N + fuel)) [Settle p o]
              (run_tasks next (N + fuel) (map calling (S n :: later)) s) in
  readyPromise s = None ->
  quiescent s ->
  next p = NextObject \/ later = [] ->
  match attempt_outcome (next p) o with
  | Fulfilled =>
      readyPromise s2 = Some p /\
      getNextServer s2 = inr (mkServer p) /\
      getRequestHandler s2 = inr (HandlerOf (mkServer p))
  | Rejected _ =>
      readyPromise s2 = None /\
      getNextServer s2 = inl uninitialized /\
      getRequestHandler s2 = inl uninitialized
  end.
Proof.
  cbv zeta. intros Hrp Hq Hcase.
  rewrite (attempt_end_state next s n later o fuel Hrp Hq Hcase).
  destruct (attempt_outcome _ o); repeat split.
Qed.

Lemma getters_after_attempt_witness :
  let next := fun _ : nat => NextFalsy in
  let s2 := run_task next 3 [Settle 0 Fulfilled]
              (run_tasks next 2 [calling 2] fresh) in
  readyPromise fresh = None /\
  quiescent fresh /\
  (next 0 = NextObject \/ @nil nat = []) /\
  readyPromise s2 = None /\
  getNextServer s2 = inl uninitialized /\
  getRequestHandler s2 = inl uninitialized.
Proof.
  cbv zeta.
  split; [reflexivity|]. split; [reflexivity|]. split; [right; reflexivity|].
  exact (getters_after_attempt (fun _ => NextFalsy) fresh 1 [] Fulfilled 0
           eq_refl eq_refl (or_intror eq_refl)).
Defined.

(** ** What [bootstrap] gets *)

Lemma find_app_miss {A} (f : A -> bool) (l1 l2 : list A) :
  find f l1 = None -> find f (l1 ++ l2) = find f l2.
Proof.
  induction l1 as [|x l1 IH]; simpl; [reflexivity|].
  destruct (f x); [discriminate|exact IH].
Qed.

Lemma find_older_results (c : nat) (rs : list (nat * outcome)) (cs : nat) :
  Forall (fun r => fst r < cs) rs -> cs <= c ->
  find (fun r => Nat.eqb (fst r) c) rs = None.
Proof.
  intros Hrs Hc. induction Hrs as [|r rs Hr _ IH]; simpl; [reflexivity|].
  destruct (Nat.eqb_spec (fst r) c); [lia|exact IH].
Qed.

Lemma find_shared_result (out : outcome) (c N : nat) : forall cs,
  cs <= c < cs + N ->
  find (fun r => Nat.eqb (fst r) c) (map (fun c' => (c', out)) (seq cs N))
  = Some (c, out).
Proof.
  induction N as [|N IH]; intros cs Hc; [lia|]. simpl.
  destruct (Nat.eqb_spec cs c) as [->|Hne]; [reflexivity|].
  apply IH. lia.
Qed.

(** X8: [bootstrap] awaits one of the calls that share the attempt and
    then asks for the handler.  When the attempt succeeds it gets the
    handler of the renderer that was prepared, never the error
    "Next.js was not initialized yet"; when the attempt fails it throws
    the error of the attempt. *)
Theorem bootstrap_gets_prepared_handler next (s : state) (n : nat)
    (later : list nat) (o : outcome) (fuel : nat) (c : nat) :
  let p := executions s in
  let N := S n + sum_list later in
  let s2 := run_task next (S (N + fuel)) [Settle p o]
              (run_tasks next (N + fuel) (map calling (S n :: later)) s) in
  readyPromise s = None ->
  quiescent s ->
  next p = NextObject \/ later = [] ->
  Forall (fun r => fst r < calls s) (results s) ->
  calls s <= c < calls s + N ->
  bootstrap_handle c s2
  = Some match attempt_outcome (next p) o with
         | Fulfilled => inr (HandlerOf (mkServer p))
         | Rejected e => inl e
         end.
Proof.
  cbv zeta. intros Hrp Hq Hcase Hrs Hc.
  rewrite (attempt_end_state next s n later o fuel Hrp Hq Hcase).
  unfold bootstrap_handle, result_of. cbn [results].
  rewrite find_app_miss by (eapply find_older_results; [exact Hrs|lia]).
  rewrite find_shared_result by exact Hc.
  destruct (attempt_outcome _ o); reflexivity.
Qed.

Lemma bootstrap_gets_prepared_handler_witness :
  let next := fun _ : nat => NextObject in
  let s2 := run_task next 3 [Settle 0 Fulfilled]
              (run_tasks next 2 (map calling [1; 1]) fresh) in
  readyPromise fresh = None /\
  quiescent fresh /\
  (next 0 = NextObject \/ [1] = @nil nat) /\
  Forall (fun r : nat * outcome => fst r < calls fresh) (results fresh) /\
  calls fresh <= 1 < calls fresh + 2 /\
  bootstrap_handle 1 s2 = Some (inr (HandlerOf (mkServer 0))).
Proof.
  cbv zeta.
  split; [reflexivity|]. split; [reflexivity|]. split; [left; reflexivity|].
  split; [constructor|]. split; [simpl; lia|].
  apply (bootstrap_gets_prepared_handler (fun _ => NextObject) fresh 0 [1]
           Fulfilled 0 1 eq_refl eq_refl (or_introl eq_refl)).
  - constructor.
  - simpl. lia.
Defined.

(** ** Invariants of the gate under every schedule *)
Section Invariants.

Variable next : nat -> next_result.

Lemma extends_refl s : extends s s.
Proof. split; auto. Qed.

Lemma backed_extends s s' o : extends s s' -> backed s o -> backed s' o.
Proof. intros [_ H] [p Hp]. exists p. auto. Qed.

Lemma job_wf_extends s s' j : extends s s' -> job_wf next s j -> job_wf next s' j.
Proof.
  intros He. destruct j as [p o|c o|sc]; simpl; auto.
  intros [Hc Hb]. split; [destruct He; lia|eapply backed_extends; eauto].
Qed.

Lemma queue_extends s s' (q : list job) :
  extends s s' -> Forall (job_wf next s) q -> Forall (job_wf next s') q.
Proof.
  intros He H. eapply Forall_impl; [exact H|].
  intros j. now apply job_wf_extends.
Qed.

Lemma results_extends s s' (rs : list (nat * outcome)) :
  extends s s' ->
  Forall (fun r => fst r < calls s /\ backed s (snd r)) rs ->
  Forall (fun r => fst r < calls s' /\ backed s' (snd r)) rs.
Proof.
  intros He H. eapply Forall_impl; [exact H|]. intros r [Hc Hb].
  split; [destruct He; lia|eapply backed_extends; eauto].
Qed.

Lemma promise_wf_calls s s' p pr :
  calls s <= calls s' -> promise_wf next s p pr -> promise_wf next s' p pr.
Proof.
  intros Hc. destruct pr as [r ws|[|e]]; simpl; auto.
  intros [Hn Hws]. split; [exact Hn|].
  eapply Forall_impl; [exact Hws|]. simpl. intros. lia.
Qed.

(** Replacing a pending promise keeps the settled ones. *)
Lemma insert_keeps_settled (ps : list promise) p r ws x q o :
  ps !! p = Some (Pending r ws) ->
  ps !! q = Some (Settled o) ->
  <[p := x]> ps !! q = Some (Settled o).
Proof.
  intros Hp Hq. rewrite list_lookup_insert_ne; [exact Hq|].
  intros ->. rewrite Hp in Hq. discriminate Hq.
Qed.

Lemma wf_fresh : wf next fresh.
Proof.
  constructor; simpl; try discriminate; constructor.
Qed.

Lemma wf_set_calls s :
  wf next s -> wf next (set_calls (S (calls s)) s).
Proof.
  intros [H1 H2 H3 H4 H5 H6].
  assert (He : extends s (set_calls (S (calls s)) s)).
  { split; simpl; auto. }
  constructor; unfold executions in *; simpl.
  - exact H1.
  - lia.
  - exact H3.
  - intros p pr Hp. eapply promise_wf_calls; [|apply H4, Hp]. simpl. lia.
  - exact (results_extends s _ _ He H5).
  - exact (queue_extends s _ _ He H6).
Qed.

(** A new promise is appended and [server] assigned. *)
Lemma wf_new_promise s v x :
  wf next s ->
  executions s < calls s ->
  promise_wf next s (length (promises s)) x ->
  (forall srv, v = Some srv ->
     made_by srv <= length (promises s) /\ next (made_by srv) = NextObject) ->
  wf next (set_promises (promises s ++ [x]) (set_server v s)).
Proof.
  intros [H1 H2 H3 H4 H5 H6] Hlt Hx Hv.
  assert (He : extends s (set_promises (promises s ++ [x]) (set_server v s))).
  { split; simpl; auto. intros p o Hp. now apply lookup_app_l_Some. }
  constructor; unfold executions in *; simpl; rewrite ?length_app; simpl.
  - intros p Hp. specialize (H1 p Hp). lia.
  - lia.
  - intros srv Hsrv. destruct (Hv srv Hsrv). split; [lia|assumption].
  - intros p pr Hp. apply lookup_app_Some in Hp as [Hp|[Hge Hp]].
    + apply (H4 p pr Hp).
    + destruct (p - length (promises s)) as [|k] eqn:Hk;
        [|destruct k; discriminate Hp].
      injection Hp as <-. replace p with (length (promises s)) by lia.
      exact Hx.
  - exact (results_extends s _ _ He H5).
  - exact (queue_extends s _ _ He H6).
Qed.

(** [initializeNext] in a call that has been counted. *)
Lemma wf_initializeNext s :
  wf next s -> executions s < calls s ->
  fst (initializeNext next s) = executions s /\
  wf next (snd (initializeNext next s)) /\
  calls (snd (initializeNext next s)) = calls s /\
  readyPromise (snd (initializeNext next s)) = readyPromise s /\
  is_Some (promises (snd (initializeNext next s)) !! executions s).
Proof.
  intros Hwf Hlt.
  unfold initializeNext, initializeNext_try, initializeNext_catch, executions.
  destruct (next (length (promises s))) eqn:Hn; simpl;
    (split; [reflexivity|]);
    (split; [|split; [reflexivity|split; [reflexivity|
       rewrite lookup_snoc; eauto]]]).
  - apply (wf_new_promise s None); simpl; auto; discriminate.
  - apply (wf_new_promise (set_server None s) None (Settled _)); simpl; auto;
      try discriminate.
    destruct Hwf; constructor; simpl; auto; discriminate.
  - apply (wf_new_promise s (Some (mkServer (length (promises s))))); simpl; auto.
    intros srv [= <-]. simpl. auto.
Qed.

Lemma wf_set_readyPromise s v :
  wf next s ->
  (forall p, v = Some p -> p < executions s) ->
  wf next (set_readyPromise v s).
Proof.
  intros [H1 H2 H3 H4 H5 H6] Hv.
  constructor; unfold executions in *; simpl; auto.
Qed.

Lemma wf_enqueue s js :
  wf next s -> Forall (job_wf next s) js -> wf next (enqueue js s).
Proof.
  intros [H1 H2 H3 H4 H5 H6] Hjs.
  constructor; unfold executions in *; simpl; auto.
  apply Forall_app. split; assumption.
Qed.

(** A pending promise is replaced, by a pending or a settled one. *)
Lemma wf_replace_pending s p r ws x :
  wf next s ->
  promises s !! p = Some (Pending r ws) ->
  promise_wf next s p x ->
  wf next (set_promises (<[p := x]> (promises s)) s)
  /\ extends s (set_promises (<[p := x]> (promises s)) s).
Proof.
  intros [H1 H2 H3 H4 H5 H6] Hp Hx.
  assert (He : extends s (set_promises (<[p := x]> (promises s)) s)).
  { split; simpl; auto. intros q o Hq. eapply insert_keeps_settled; eauto. }
  split; [|exact He].
  constructor; unfold executions in *; simpl; rewrite ?length_insert; auto.
  - intros q pr Hq. destruct (decide (p = q)) as [<-|Hne].
    + rewrite list_lookup_insert_eq in Hq by (eapply lookup_lt_Some, Hp).
      injection Hq as <-. exact Hx.
    + rewrite list_lookup_insert_ne in Hq by exact Hne. apply (H4 q pr Hq).
  - exact (results_extends s _ _ He H5).
  - exact (queue_extends s _ _ He H6).
Qed.

Lemma wf_await_readyPromise s p c :
  wf next s -> c < calls s -> wf next (await_readyPromise p c s).
Proof.
  intros Hwf Hc. unfold await_readyPromise.
  destruct (promises s !! p) as [[r ws|o]|] eqn:Hp; [| |exact Hwf].
  - apply (wf_replace_pending s p r ws); [exact Hwf|exact Hp|].
    destruct (wf_promises next s Hwf p _ Hp) as [Hn Hws].
    split; [exact Hn|]. apply Forall_app. split; [exact Hws|].
    repeat constructor. exact Hc.
  - apply wf_enqueue; [exact Hwf|]. repeat constructor; [exact Hc|].
    now exists p.
Qed.

Lemma wf_ensureReady s : wf next s -> wf next (ensureReady next s).
Proof.
  intros Hwf. unfold ensureReady.
  pose proof (wf_set_calls s Hwf) as Hwf1.
  set (s1 := set_calls (S (calls s)) s) in *.
  destruct (readyPromise s1) as [p|] eqn:Hrp.
  - apply wf_await_readyPromise; [exact Hwf1|simpl; lia].
  - assert (Hlt : executions s1 < calls s1).
    { pose proof (wf_demand next s Hwf). unfold executions in *. simpl. lia. }
    destruct (wf_initializeNext s1 Hwf1 Hlt) as (Hp & Hwf2 & Hc & _ & [x Hx]).
    destruct (initializeNext next s1) as [p s2]. simpl in *. subst p.
    apply wf_await_readyPromise; [|simpl; rewrite Hc; simpl; lia].
    apply wf_set_readyPromise; [exact Hwf2|].
    intros p [= <-]. eapply lookup_lt_Some. exact Hx.
Qed.

Lemma wf_settle_prepare s p o : wf next s -> wf next (settle_prepare p o s).
Proof.
  intros Hwf. unfold settle_prepare.
  destruct (promises s !! p) as [[[|] ws|o']|] eqn:Hp; try exact Hwf.
  pose proof (wf_promises next s Hwf p _ Hp) as Hpr.
  destruct (wf_replace_pending s p false ws (Pending true ws) Hwf Hp Hpr)
    as [Hwf' He].
  apply wf_enqueue; [exact Hwf'|].
  repeat constructor. simpl. apply Hpr.
Qed.

Lemma wf_settle s p o :
  wf next s ->
  (o = Fulfilled -> next p = NextObject) ->
  wf next (settle p o s).
Proof.
  intros Hwf Ho. unfold settle.
  destruct (promises s !! p) as [[r ws|o']|] eqn:Hp; try exact Hwf.
  pose proof (wf_promises next s Hwf p _ Hp) as [Hn Hws].
  assert (Hx : promise_wf next s p (Settled o)).
  { destruct o; simpl; auto. }
  destruct (wf_replace_pending s p r ws (Settled o) Hwf Hp Hx) as [Hwf' He].
  apply wf_enqueue; [exact Hwf'|].
  apply Forall_map. eapply Forall_impl; [exact Hws|].
  intros c Hc. simpl. split; [exact Hc|].
  exists p. apply list_lookup_insert_eq. eapply lookup_lt_Some, Hp.
Qed.

Lemma wf_set_server_None s : wf next s -> wf next (set_server None s).
Proof.
  intros [H1 H2 H3 H4 H5 H6].
  constructor; unfold executions in *; simpl; auto. discriminate.
Qed.

Lemma wf_resume_initializeNext s p o :
  wf next s -> next p = NextObject ->
  wf next (resume_initializeNext p o s).
Proof.
  intros Hwf Hn. unfold resume_initializeNext, initializeNext_catch.
  destruct o as [|e]; apply wf_settle; auto using wf_set_server_None.
Qed.

Lemma wf_record_result s c o :
  wf next s -> c < calls s -> backed s o -> wf next (record_result c o s).
Proof.
  intros [H1 H2 H3 H4 H5 H6] Hc Hb.
  constructor; unfold executions in *; simpl; auto.
  apply Forall_app. split; [exact H5|]. repeat constructor; assumption.
Qed.

Lemma wf_resume_ensureReady s c o :
  wf next s -> c < calls s -> backed s o ->
  wf next (resume_ensureReady c o s).
Proof.
  intros Hwf Hc Hb. unfold resume_ensureReady.
  destruct o as [|e]; apply wf_record_result; auto.
  apply wf_set_readyPromise; [exact Hwf|discriminate].
Qed.

Lemma wf_run_action a s : wf next s -> wf next (run_action next a s).
Proof.
  intros Hwf. destruct a as [|sc|p o]; simpl.
  - now apply wf_ensureReady.
  - apply wf_enqueue; [exact Hwf|]. repeat constructor.
  - now apply wf_settle_prepare.
Qed.

Lemma wf_run_script sc : forall s, wf next s -> wf next (run_script next sc s).
Proof.
  unfold run_script. induction sc as [|a sc IH]; intros s Hwf; simpl;
    [exact Hwf|]. apply IH. now apply wf_run_action.
Qed.

Lemma wf_run_microtask s s' :
  wf next s -> run_microtask next s = Some s' -> wf next s'.
Proof.
  intros Hwf. unfold run_microtask.
  destruct (microtasks s) as [|j q] eqn:Hq; [discriminate|]. intros [= <-].
  pose proof (wf_queue next s Hwf) as Hjq. rewrite Hq in Hjq.
  apply Forall_cons in Hjq as [Hj Hjq].
  assert (Hpop : wf next (mkState (server s) (readyPromise s) (promises s)
                            (calls s) (results s) q)).
  { destruct Hwf as [H1 H2 H3 H4 H5 H6].
    constructor; unfold executions in *; simpl; auto. }
  destruct j as [p o|c o|sc]; simpl.
  - apply wf_resume_initializeNext; [exact Hpop|exact Hj].
  - destruct Hj as [Hc Hb]. apply wf_resume_ensureReady; auto.
  - apply wf_run_script, Hpop.
Qed.

Lemma wf_drain fuel : forall s, wf next s -> wf next (drain next fuel s).
Proof.
  induction fuel as [|fuel IH]; intros s Hwf; simpl; [exact Hwf|].
  destruct (run_microtask next s) as [s'|] eqn:Hs; [|exact Hwf].
  eapply IH, wf_run_microtask; eauto.
Qed.

Lemma wf_run_tasks fuel scripts : forall s,
  wf next s -> wf next (run_tasks next fuel scripts s).
Proof.
  unfold run_tasks, run_task.
  induction scripts as [|sc scripts IH]; intros s Hwf; simpl; [exact Hwf|].
  apply IH, wf_drain, wf_run_script, Hwf.
Qed.

End Invariants.

(** X9: under every schedule, [initializeNext] has been executed at most
    once per call of [ensureReady]; the attempt recorded in
    [readyPromise] is one that was started; and [server] only ever holds
    an object that [next] returned. *)
Theorem preparation_only_on_demand next (fuel : nat) (scripts : list (list action)) :
  let s := run_tasks next fuel scripts fresh in
  executions s <= calls s /\
  in_flight s <= executions s /\
  match readyPromise s with
  | Some p => p < executions s
  | None => True
  end /\
  match server s with
  | Some srv => made_by srv < executions s /\ next (made_by srv) = NextObject
  | None => True
  end.
Proof.
  cbv zeta.
  pose proof (wf_run_tasks next fuel scripts fresh (wf_fresh next))
    as [H1 H2 H3 H4 _ _].
  split; [exact H2|]. split; [apply length_filter|]. split.
  - destruct (readyPromise _) as [p|]; [now apply H1|exact I].
  - destruct (server _) as [srv|]; [now apply H3|exact I].
Qed.

(** X10: under every schedule, a call of [ensureReady] that has settled
    did so with the outcome of an execution of [initializeNext] that has
    ended: it resolves only if an attempt whose [next] returned a server
    was fulfilled, and it rejects only with the error of an attempt. *)
Theorem results_come_from_attempts next (fuel : nat)
    (scripts : list (list action)) (c : nat) (o : outcome) :
  let s := run_tasks next fuel scripts fresh in
  In (c, o) (results s) ->
  c < calls s /\
  exists p, promises s !! p = Some (Settled o) /\
            match o with
            | Fulfilled => next p = NextObject
            | Rejected _ => True
            end.
Proof.
  cbv zeta. intros Hin.
  pose proof (wf_run_tasks next fuel scripts fresh (wf_fresh next)) as Hwf.
  pose proof (wf_results next _ Hwf) as Hrs.
  rewrite Forall_forall in Hrs.
  destruct (Hrs (c, o)) as [Hc [p Hp]]; [now apply list_elem_of_In|].
  split; [exact Hc|]. exists p. split; [exact Hp|].
  exact (wf_promises next _ Hwf p _ Hp).
Qed.

Lemma results_come_from_attempts_witness :
  let next := first_then_ok NextFalsy in
  let s := run_tasks next 2 [[Call; Call]; [Call]; [Settle 1 Fulfilled]] fresh in
  In (2, Fulfilled) (results s) /\
  2 < calls s /\
  exists p, promises s !! p = Some (Settled Fulfilled) /\ next p = NextObject.
Proof.
  cbv zeta. split; [right; right; left; reflexivity|].
  apply (results_come_from_attempts (first_then_ok NextFalsy) 2
           [[Call; Call]; [Call]; [Settle 1 Fulfilled]] 2 Fulfilled).
  right; right; left; reflexivity.
Defined.

(** ** Single flight for callers that only call from tasks *)
Section TasksOnly.

Variable next : nat -> next_result.

Lemma ensureReady_dangling s p :
  readyPromise s = Some p ->
  promises s !! p = None ->
  ensureReady next s
  = mkState (server s) (Some p) (promises s) (S (calls s)) (results s)
      (microtasks s).
Proof.
  destruct s as [sv rp ps cs rs q]. simpl. intros -> Hp.
  unfold ensureReady, await_readyPromise. simpl. now rewrite Hp.
Qed.

(** With one promise pending at most, none is once it is known that the
    recorded one is not. *)
Lemma single_none_pending s :
  single s ->
  (forall p, readyPromise s = Some p ->
             forall r ws, promises s !! p <> Some (Pending r ws)) ->
  none_pending s.
Proof.
  intros Hs Hrp q r ws Hq. apply (Hrp q (Hs q r ws Hq) r ws Hq).
Qed.

Lemma scripting_ensureReady s : scripting s -> scripting (ensureReady next s).
Proof.
  intros [[Hs Hns Hrej] Hrec].
  destruct (readyPromise s) as [p|] eqn:Hrp.
  - destruct (promises s !! p) as [[r ws|o]|] eqn:Hp.
    + rewrite (ensureReady_pending next s p r ws Hrp Hp).
      assert (Hno : ~ rejection_queued s).
      { intros H. exact (Hrej H p r ws Hp). }
      split; [split|]; unfold single, no_scripts, rejection_queued,
        none_pending; simpl.
      * intros q r' ws' Hq. destruct (decide (p = q)) as [<-|Hne];
          [reflexivity|].
        rewrite list_lookup_insert_ne in Hq by exact Hne.
        rewrite <- Hrp. eapply Hs, Hq.
      * exact Hns.
      * intros H. now destruct Hno.
      * discriminate.
    + rewrite (ensureReady_settled next s p o Hrp Hp).
      assert (Hnone : none_pending s).
      { apply single_none_pending; [exact Hs|].
        intros p' Hp' r ws. rewrite Hrp in Hp'. injection Hp' as <-.
        rewrite Hp. discriminate. }
      split; [split|]; unfold single, no_scripts, rejection_queued,
        none_pending; simpl.
      * intros q r' ws' Hq. now destruct (Hnone q r' ws').
      * intros sc Hin. apply in_app_or in Hin as [Hin|[Hin|[]]];
          [exact (Hns sc Hin)|discriminate Hin].
      * intros _. exact Hnone.
      * discriminate.
    + rewrite (ensureReady_dangling s p Hrp Hp).
      split; [split|]; unfold single, no_scripts, rejection_queued,
        none_pending; simpl.
      * intros q r' ws' Hq. rewrite <- Hrp. eapply Hs, Hq.
      * exact Hns.
      * exact Hrej.
      * discriminate.
  - assert (Hno : ~ rejection_queued s).
    { intros H. now apply (Hrec H). }
    assert (Hnone : none_pending s).
    { apply single_none_pending; [exact Hs|]. intros p Hp.
      rewrite Hrp in Hp. discriminate Hp. }
    pose proof (ensureReady_idle next s Hrp) as Hfirst. cbv zeta in Hfirst.
    rewrite Hfirst. clear Hfirst.
    assert (Hlook : forall q x pr,
      (promises s ++ [x]) !! q = Some pr ->
      promises s !! q = Some pr \/ (q = length (promises s) /\ pr = x)).
    { intros q x pr Hq. apply lookup_app_Some in Hq as [Hq|[Hge Hq]]; [now left|].
      right. destruct (q - length (promises s)) as [|k] eqn:Hk;
        [|destruct k; discriminate Hq].
      injection Hq as <-. split; [lia|reflexivity]. }
    destruct (next (length (promises s)));
      (split; [split|]); unfold single, no_scripts, rejection_queued,
        none_pending; simpl; try discriminate.
    all: try (intros q r' ws' Hq; apply Hlook in Hq as [Hq|[-> Hq]];
              [now destruct (Hnone q r' ws')|try discriminate Hq; reflexivity]).
    all: try (intros sc Hin; apply in_app_or in Hin as [Hin|[Hin|[]]];
              [exact (Hns sc Hin)|discriminate Hin]).
    all: try exact Hns.
    all: try (intros _ q r' ws' Hq; apply Hlook in Hq as [Hq|[-> Hq]];
              [now destruct (Hnone q r' ws')|discriminate Hq]).
    intros H. now destruct Hno.
Qed.

Lemma scripting_settle_prepare s p o :
  scripting s -> scripting (settle_prepare p o s).
Proof.
  intros Hsc. unfold settle_prepare.
  destruct (promises s !! p) as [[[|] ws|o']|] eqn:Hp; try exact Hsc.
  destruct Hsc as [[Hs Hns Hrej] Hrec].
  assert (Hno : ~ rejection_queued s).
  { intros H. exact (Hrej H p false ws Hp). }
  assert (Hq : forall c e,
    In (ResumeEnsureReady c (Rejected e))
       (microtasks s ++ [ResumeInitializeNext p o]) ->
    rejection_queued s).
  { intros c e Hin. apply in_app_or in Hin as [Hin|[Hin|[]]];
      [now exists c, e|discriminate Hin]. }
  split; [split|]; unfold single, no_scripts, rejection_queued,
    none_pending; simpl.
  - intros q r' ws' Hq'. destruct (decide (p = q)) as [<-|Hne].
    + eapply Hs, Hp.
    + rewrite list_lookup_insert_ne in Hq' by exact Hne. eapply Hs, Hq'.
  - intros sc Hin. apply in_app_or in Hin as [Hin|[Hin|[]]];
      [exact (Hns sc Hin)|discriminate Hin].
  - intros (c & e & Hin). destruct Hno. eapply Hq, Hin.
  - intros (c & e & Hin). destruct Hno. eapply Hq, Hin.
Qed.

Lemma scripting_run_script sc : forall s,
  Forall (fun a => is_spawn a = false) sc ->
  scripting s -> scripting (run_script next sc s).
Proof.
  unfold run_script. induction sc as [|a sc IH]; intros s Hsc Hs; simpl;
    [exact Hs|].
  apply Forall_cons in Hsc as [Ha Hsc]. apply IH; [exact Hsc|].
  destruct a as [|sc'|p o]; simpl.
  - now apply scripting_ensureReady.
  - discriminate Ha.
  - now apply scripting_settle_prepare.
Qed.

Lemma draining_settle s p o :
  draining s ->
  (rejection_queued s -> forall r ws, promises s !! p <> Some (Pending r ws)) ->
  draining (settle p o s).
Proof.
  intros [Hs Hns Hrej] Hp'. unfold settle.
  destruct (promises s !! p) as [[r ws|o']|] eqn:Hp;
    try (split; assumption).
  assert (Hno : ~ rejection_queued s).
  { intros H. exact (Hp' H r ws eq_refl). }
  assert (Hnone : forall q r' ws',
            <[p := Settled o]> (promises s) !! q <> Some (Pending r' ws')).
  { intros q r' ws' Hq. destruct (decide (p = q)) as [<-|Hne].
    - rewrite list_lookup_insert_eq in Hq by (eapply lookup_lt_Some, Hp).
      discriminate Hq.
    - rewrite list_lookup_insert_ne in Hq by exact Hne.
      pose proof (Hs q r' ws' Hq) as Hq1. pose proof (Hs p r ws Hp) as Hp1.
      rewrite Hq1 in Hp1. injection Hp1 as ->. now destruct Hne. }
  split; unfold single, no_scripts, rejection_queued, none_pending; simpl.
  - intros q r' ws' Hq. now destruct (Hnone q r' ws').
  - intros sc Hin. apply in_app_or in Hin as [Hin|Hin]; [exact (Hns sc Hin)|].
    apply in_map_iff in Hin as (c & Hc & _). discriminate Hc.
  - intros _. exact Hnone.
Qed.

Lemma draining_run_microtask s s' :
  draining s -> run_microtask next s = Some s' -> draining s'.
Proof.
  intros [Hs Hns Hrej]. unfold run_microtask.
  destruct (microtasks s) as [|j q] eqn:Hq; [discriminate|]. intros [= <-].
  assert (Hpop : draining (popped s q)).
  { split; unfold single, no_scripts, rejection_queued, none_pending,
      popped; simpl.
    - exact Hs.
    - intros sc Hin. apply (Hns sc). rewrite Hq. now right.
    - intros (c & e & Hin). apply Hrej. exists c, e. rewrite Hq. now right. }
  fold (popped s q).
  destruct j as [p o|c o|sc]; simpl.
  - unfold resume_initializeNext, initializeNext_catch.
    assert (Hsrv : draining (set_server None (popped s q))).
    { destruct Hpop as [H1 H2 H3]. split; assumption. }
    destruct o as [|e]; apply draining_settle; try assumption.
    + intros H r ws. apply (dr_rejection _ Hpop H).
    + intros H r ws. apply (dr_rejection _ Hsrv H).
  - unfold resume_ensureReady. destruct o as [|e].
    + destruct Hpop as [H1 H2 H3]. split; assumption.
    + assert (Hnone : none_pending s).
      { apply Hrej. exists c, e. rewrite Hq. now left. }
      split; unfold single, no_scripts, rejection_queued, none_pending,
        popped; simpl.
      * intros q' r ws Hq'. now destruct (Hnone q' r ws).
      * apply (dr_no_scripts _ Hpop).
      * intros _. exact Hnone.
  - destruct (Hns sc). rewrite Hq. now left.
Qed.

Lemma draining_drain fuel : forall s, draining s -> draining (drain next fuel s).
Proof.
  induction fuel as [|fuel IH]; intros s Hd; simpl; [exact Hd|].
  destruct (run_microtask next s) as [s'|] eqn:Hs; [|exact Hd].
  eapply IH, draining_run_microtask; eauto.
Qed.

Lemma filter_no_pending (ps : list promise) :
  (forall j r ws, ps !! j <> Some (Pending r ws)) ->
  filter is_pending ps = [].
Proof.
  induction ps as [|x ps IH]; intros Hnone; [reflexivity|].
  destruct x as [r ws|o]; [now destruct (Hnone 0 r ws)|].
  rewrite filter_cons_False by (simpl; tauto).
  apply IH. intros j. apply (Hnone (S j)).
Qed.

(** With one promise pending at most, at most one execution is in
    flight. *)
Lemma at_most_one_pending (ps : list promise) :
  (forall i j r ws r' ws',
     ps !! i = Some (Pending r ws) -> ps !! j = Some (Pending r' ws') -> i = j) ->
  length (filter is_pending ps) <= 1.
Proof.
  induction ps as [|x ps IH]; intros Huniq; [simpl; lia|].
  destruct x as [r ws|o].
  - rewrite filter_cons_True by exact I.
    rewrite filter_no_pending; [simpl; lia|].
    intros j r' ws' Hj.
    specialize (Huniq 0 (S j) r ws r' ws' eq_refl Hj). discriminate Huniq.
  - rewrite filter_cons_False by (simpl; tauto). apply IH.
    intros i j r ws r' ws' Hi Hj.
    specialize (Huniq (S i) (S j) r ws r' ws' Hi Hj). lia.
Qed.

Lemma single_in_flight s : single s -> in_flight s <= 1.
Proof.
  intros Hs. apply at_most_one_pending.
  intros i j r ws r' ws' Hi Hj.
  pose proof (Hs i r ws Hi) as H1. pose proof (Hs j r' ws' Hj) as H2.
  rewrite H1 in H2. now injection H2.
Qed.

(** ** The microtask queue empties *)

Lemma waiting_insert (ps : list promise) : forall p old x,
  ps !! p = Some old ->
  sum_list (map waiting (<[p := x]> ps)) + waiting old
  = sum_list (map waiting ps) + waiting x.
Proof.
  induction ps as [|y ps IH]; intros p old x Hp; [discriminate Hp|].
  destruct p as [|p]; simpl in *.
  - injection Hp as ->. lia.
  - specialize (IH p old x Hp). simpl in IH. lia.
Qed.

Lemma waiting_snoc (ps : list promise) x :
  sum_list (map waiting (ps ++ [x])) = sum_list (map waiting ps) + waiting x.
Proof. induction ps as [|y ps IH]; simpl in *; lia. Qed.

Lemma backlog_ensureReady s : backlog (ensureReady next s) <= S (backlog s).
Proof.
  destruct (readyPromise s) as [p|] eqn:Hrp.
  - destruct (promises s !! p) as [[r ws|o]|] eqn:Hp.
    + rewrite (ensureReady_pending next s p r ws Hrp Hp).
      unfold backlog. simpl.
      pose proof (waiting_insert (promises s) p _
                    (Pending r (ws ++ [calls s])) Hp) as H.
      simpl in H. rewrite length_app in H. simpl in H. lia.
    + rewrite (ensureReady_settled next s p o Hrp Hp).
      unfold backlog. simpl. rewrite length_app. simpl. lia.
    + rewrite (ensureReady_dangling s p Hrp Hp). unfold backlog. simpl. lia.
  - pose proof (ensureReady_idle next s Hrp) as Hfirst. cbv zeta in Hfirst.
    rewrite Hfirst. unfold backlog.
    destruct (next (length (promises s))); simpl;
      rewrite waiting_snoc, ?length_app; simpl; lia.
Qed.

Lemma backlog_settle_prepare s p o :
  backlog (settle_prepare p o s) <= S (backlog s).
Proof.
  unfold settle_prepare.
  destruct (promises s !! p) as [[[|] ws|o']|] eqn:Hp; try lia.
  unfold backlog. simpl. rewrite length_app. simpl.
  pose proof (waiting_insert (promises s) p _ (Pending true ws) Hp) as H.
  simpl in H. lia.
Qed.

Lemma backlog_run_script sc : forall s,
  Forall (fun a => is_spawn a = false) sc ->
  backlog (run_script next sc s) <= backlog s + length sc.
Proof.
  unfold run_script. induction sc as [|a sc IH]; intros s Hsc; simpl; [lia|].
  apply Forall_cons in Hsc as [Ha Hsc].
  specialize (IH (run_action next a s) Hsc).
  assert (backlog (run_action next a s) <= S (backlog s)); [|lia].
  destruct a as [|sc'|p o]; simpl.
  - apply backlog_ensureReady.
  - discriminate Ha.
  - apply backlog_settle_prepare.
Qed.

Lemma backlog_settle s p o : backlog (settle p o s) = backlog s.
Proof.
  unfold settle.
  destruct (promises s !! p) as [[r ws|o']|] eqn:Hp; try reflexivity.
  unfold backlog. simpl. rewrite length_app, length_map.
  pose proof (waiting_insert (promises s) p _ (Settled o) Hp) as H.
  simpl in H. lia.
Qed.

Lemma backlog_run_microtask s s' :
  no_scripts s -> run_microtask next s = Some s' -> S (backlog s') = backlog s.
Proof.
  intros Hns. unfold run_microtask.
  destruct (microtasks s) as [|j q] eqn:Hq; [discriminate|]. intros [= <-].
  destruct j as [p o|c o|sc]; simpl.
  - unfold resume_initializeNext, initializeNext_catch.
    destruct o; rewrite backlog_settle; unfold backlog; simpl; rewrite Hq;
      reflexivity.
  - unfold resume_ensureReady.
    destruct o; unfold backlog; simpl; rewrite Hq; reflexivity.
  - destruct (Hns sc). rewrite Hq. now left.
Qed.

Lemma drain_completes fuel : forall s,
  draining s -> backlog s <= fuel ->
  quiescent (drain next fuel s) /\ backlog (drain next fuel s) <= backlog s.
Proof.
  induction fuel as [|fuel IH]; intros s Hd Hb; simpl.
  - split; [|lia]. unfold quiescent. unfold backlog in Hb.
    destruct (microtasks s); [reflexivity|simpl in Hb; lia].
  - destruct (run_microtask next s) as [s'|] eqn:Hs.
    + pose proof (backlog_run_microtask s s' (dr_no_scripts _ Hd) Hs) as Hb'.
      destruct (IH s' (draining_run_microtask s s' Hd Hs)) as [Hq Hle]; [lia|].
      split; [exact Hq|lia].
    + split; [|lia]. unfold quiescent. unfold run_microtask in Hs.
      destruct (microtasks s); [reflexivity|discriminate Hs].
Qed.

Lemma scripting_of_quiescent s : draining s -> quiescent s -> scripting s.
Proof.
  intros Hd Hq. split; [exact Hd|].
  intros (c & e & Hin). unfold quiescent in Hq. rewrite Hq in Hin.
  destruct Hin.
Qed.

Lemma scripting_run_tasks fuel scripts : forall s,
  from_tasks_only scripts ->
  scripting s -> quiescent s ->
  backlog s + length (concat scripts) <= fuel ->
  scripting (run_tasks next fuel scripts s)
  /\ quiescent (run_tasks next fuel scripts s).
Proof.
  unfold run_tasks, run_task, from_tasks_only.
  induction scripts as [|sc scripts IH]; intros s Hsp Hs Hq Hb; simpl;
    [now split|].
  apply Forall_cons in Hsp as [Hsc Hsp].
  simpl in Hb. rewrite length_app in Hb.
  pose proof (scripting_run_script sc s Hsc Hs) as Hs1.
  pose proof (backlog_run_script sc s Hsc) as Hb1.
  destruct (drain_completes fuel (run_script next sc s) (sc_draining _ Hs1))
    as [Hq2 Hb2]; [lia|].
  apply IH; [exact Hsp| |exact Hq2|lia].
  apply scripting_of_quiescent; [|exact Hq2].
  apply draining_drain, Hs1.
Qed.

Lemma scripting_fresh : scripting fresh.
Proof.
  split; [split|]; unfold single, no_scripts, rejection_queued,
    none_pending; simpl.
  - intros q r ws H. discriminate H.
  - intros sc [].
  - intros (c & e & []).
  - intros (c & e & []).
Qed.

End TasksOnly.


(** X11: when no job queues a microtask of its own, at most one
    execution of [initializeNext] is in flight at every point of the
    run: after every task, after every action of the job that follows,
    and after every microtask.  The fuel is enough to empty the queue
    after each task. *)
Theorem single_flight_from_tasks next (fuel : nat)
    (scripts : list (list action)) (sc : list action) (k : nat) :
  from_tasks_only (scripts ++ [sc]) ->
  length (concat scripts) <= fuel ->
  in_flight (drain next k (run_script next sc (run_tasks next fuel scripts fresh)))
  <= 1.
Proof.
  intros Hsp Hfuel. unfold from_tasks_only in Hsp.
  apply Forall_app in Hsp as [Hsp Hsc]. apply Forall_cons in Hsc as [Hsc _].
  destruct (scripting_run_tasks next fuel scripts fresh Hsp (scripting_fresh))
    as [Hs _]; [reflexivity|exact Hfuel|].
  apply single_in_flight, dr_single, draining_drain, sc_draining.
  now apply scripting_run_script.
Qed.

Lemma single_flight_from_tasks_witness :
  let next := first_then_ok (NextThrows (mkError "no build")) in
  let scripts := [[Call; Call]; [Call]; [Settle 1 (Rejected (mkError "disk"))]] in
  from_tasks_only (scripts ++ [[Call; Call]]) /\
  length (concat scripts) <= 4 /\
  in_flight (drain next 1 (run_script next [Call; Call]
                             (run_tasks next 4 scripts fresh))) <= 1.
Proof.
  cbv zeta.
  split; [repeat constructor|]. split; [simpl; lia|].
  apply (single_flight_from_tasks
           (first_then_ok (NextThrows (mkError "no build"))) 4
           [[Call; Call]; [Call]; [Settle 1 (Rejected (mkError "disk"))]]
           [Call; Call] 1).
  - repeat constructor.
  - simpl. lia.
Defined.

(** ** Readiness is permanent for callers that only call from tasks *)
Section Kept.

Variable next : nat -> next_result.

Lemma resumptions_app (q js : list job) :
  resumptions (q ++ js) = resumptions q + resumptions js.
Proof. unfold resumptions. now rewrite List.filter_app, length_app. Qed.

Lemma resumptions_In (q : list job) p o :
  In (ResumeInitializeNext p o) q -> 1 <= resumptions q.
Proof.
  unfold resumptions. induction q as [|j q IH]; intros Hin; [destruct Hin|].
  destruct Hin as [->|Hin]; simpl; [lia|].
  specialize (IH Hin). destruct (is_resumption j); simpl; lia.
Qed.

Lemma resumptions_resumes (ws : list nat) o :
  resumptions (map (fun c => ResumeEnsureReady c o) ws) = 0.
Proof. unfold resumptions. induction ws; simpl; auto. Qed.

Lemma kept_fresh : kept fresh.
Proof.
  split; simpl; try (intros; discriminate); try (intros ? ? []).
  unfold resumptions. simpl. lia.
Qed.

Lemma kept_ensureReady s : scripting s -> kept s -> kept (ensureReady next s).
Proof.
  intros [[Hs Hns Hrej] Hrec] [Ka Kb Kc Kd Ke].
  destruct (readyPromise s) as [p|] eqn:Hrp.
  - destruct (promises s !! p) as [[r ws|o]|] eqn:Hp.
    + rewrite (ensureReady_pending next s p r ws Hrp Hp).
      assert (Hlt : p < length (promises s)) by (eapply lookup_lt_Some, Hp).
      split; unfold rejection_queued; simpl.
      * intros q r' ws' Hq. destruct (decide (p = q)) as [<-|Hne];
          [eapply Ka, Hp|].
        rewrite list_lookup_insert_ne in Hq by exact Hne. eapply Ka, Hq.
      * intros q Hq. destruct (decide (p = q)) as [<-|Hne].
        -- rewrite list_lookup_insert_eq in Hq by exact Hlt. discriminate Hq.
        -- rewrite list_lookup_insert_ne in Hq by exact Hne.
           apply (Kb q Hq).
      * intros q o Hin. destruct (Kc q o Hin) as [ws' Hq].
        destruct (decide (p = q)) as [<-|Hne].
        -- rewrite Hp in Hq. injection Hq as -> ->.
           rewrite list_lookup_insert_eq by exact Hlt. eauto.
        -- rewrite list_lookup_insert_ne by exact Hne. eauto.
      * exact Kd.
      * intros q Hq. destruct (decide (p = q)) as [<-|Hne].
        -- rewrite list_lookup_insert_eq in Hq by exact Hlt. discriminate Hq.
        -- rewrite list_lookup_insert_ne in Hq by exact Hne. apply (Ke q Hq).
    + rewrite (ensureReady_settled next s p o Hrp Hp).
      split; unfold rejection_queued; simpl.
      * exact Ka.
      * intros q Hq. apply (Kb q Hq).
      * intros q o' Hin. apply in_app_or in Hin as [Hin|[Hin|[]]];
          [apply (Kc q o' Hin)|discriminate Hin].
      * rewrite resumptions_app. unfold resumptions at 2. simpl.
        unfold resumptions in *. lia.
      * intros q Hq (c & e & Hin).
        apply in_app_or in Hin as [Hin|[Hin|[]]].
        -- apply (Ke q Hq). now exists c, e.
        -- injection Hin as _ ->.
           destruct (Kb q Hq) as [Hq1 _].
           injection Hq1 as ->. rewrite Hp in Hq. discriminate Hq.
    + rewrite (ensureReady_dangling next s p Hrp Hp).
      split; unfold rejection_queued; simpl; auto.
  - assert (Hnone : none_pending s).
    { apply single_none_pending; [exact Hs|]. intros p Hp.
      rewrite Hrp in Hp. discriminate Hp. }
    assert (Hnof : forall q, promises s !! q <> Some (Settled Fulfilled)).
    { intros q Hq. destruct (Kb q Hq) as [Hq1 _]. discriminate Hq1. }
    assert (Hnor : forall q o, ~ In (ResumeInitializeNext q o) (microtasks s)).
    { intros q o Hin. destruct (Kc q o Hin) as [ws Hq].
      exact (Hnone q true ws Hq). }
    pose proof (ensureReady_idle next s Hrp) as Hfirst. cbv zeta in Hfirst.
    rewrite Hfirst. clear Hfirst.
    assert (Hlook : forall q x pr,
      (promises s ++ [x]) !! q = Some pr ->
      promises s !! q = Some pr \/ (q = length (promises s) /\ pr = x)).
    { intros q x pr Hq. apply lookup_app_Some in Hq as [Hq|[Hge Hq]]; [now left|].
      right. destruct (q - length (promises s)) as [|k] eqn:Hk;
        [|destruct k; discriminate Hq].
      injection Hq as <-. split; [lia|reflexivity]. }
    destruct (next (length (promises s))); split; unfold rejection_queued; simpl.
    all: try (intros q r' ws' Hq; apply Hlook in Hq as [Hq|[-> Hq]];
              [now destruct (Hnone q r' ws')|try discriminate Hq; reflexivity]).
    all: try (intros q Hq; apply Hlook in Hq as [Hq|[-> Hq]];
              [now destruct (Hnof q)|discriminate Hq]).
    all: try (intros q o Hin; try (apply in_app_or in Hin as [Hin|[Hin|[]]];
              [|discriminate Hin]); now destruct (Hnor q o)).
    all: try (rewrite resumptions_app; unfold resumptions at 2; simpl;
              unfold resumptions in *; lia).
    all: try exact Kd.
Qed.

Lemma kept_settle_prepare s p o :
  scripting s -> kept s -> kept (settle_prepare p o s).
Proof.
  intros [[Hs Hns Hrej] Hrec] Hk. unfold settle_prepare.
  destruct (promises s !! p) as [[[|] ws|o']|] eqn:Hp; try exact Hk.
  destruct Hk as [Ka Kb Kc Kd Ke].
  assert (Hlt : p < length (promises s)) by (eapply lookup_lt_Some, Hp).
  assert (Hnor : forall q o', ~ In (ResumeInitializeNext q o') (microtasks s)).
  { intros q o' Hin. destruct (Kc q o' Hin) as [ws' Hq].
    pose proof (Hs q true ws' Hq) as H1. pose proof (Hs p false ws Hp) as H2.
    rewrite H1 in H2. injection H2 as ->. rewrite Hp in Hq. discriminate Hq. }
  assert (Hzero : resumptions (microtasks s) = 0).
  { unfold resumptions. destruct (List.filter is_resumption (microtasks s))
      as [|j l] eqn:Hf; [reflexivity|].
    assert (Hin : In j (List.filter is_resumption (microtasks s)))
      by (rewrite Hf; now left).
    apply List.filter_In in Hin as [Hin Hj].
    destruct j as [q o'| |]; try discriminate Hj. now destruct (Hnor q o'). }
  split; unfold rejection_queued; simpl.
  - intros q r' ws' Hq. destruct (decide (p = q)) as [<-|Hne];
      [eapply Ka, Hp|].
    rewrite list_lookup_insert_ne in Hq by exact Hne. eapply Ka, Hq.
  - intros q Hq. destruct (decide (p = q)) as [<-|Hne].
    + rewrite list_lookup_insert_eq in Hq by exact Hlt. discriminate Hq.
    + rewrite list_lookup_insert_ne in Hq by exact Hne. apply (Kb q Hq).
  - intros q o' Hin. apply in_app_or in Hin as [Hin|[Hin|[]]];
      [now destruct (Hnor q o')|].
    injection Hin as <- <-. exists ws. now apply list_lookup_insert_eq.
  - rewrite resumptions_app, Hzero. unfold resumptions. simpl. lia.
  - intros q Hq (c & e & Hin). destruct (decide (p = q)) as [<-|Hne].
    + rewrite list_lookup_insert_eq in Hq by exact Hlt. discriminate Hq.
    + rewrite list_lookup_insert_ne in Hq by exact Hne.
      apply in_app_or in Hin as [Hin|[Hin|[]]]; [|discriminate Hin].
      apply (Ke q Hq). now exists c, e.
Qed.

Lemma kept_run_script sc : forall s,
  Forall (fun a => is_spawn a = false) sc ->
  scripting s -> kept s -> kept (run_script next sc s).
Proof.
  unfold run_script. induction sc as [|a sc IH]; intros s Hsc Hs Hk; simpl;
    [exact Hk|].
  apply Forall_cons in Hsc as [Ha Hsc].
  destruct a as [|sc'|p o]; simpl; try discriminate Ha.
  - apply IH; [exact Hsc|now apply scripting_ensureReady|
               now apply kept_ensureReady].
  - apply IH; [exact Hsc|now apply scripting_settle_prepare|
               now apply kept_settle_prepare].
Qed.

Lemma kept_run_microtask s s' :
  draining s -> kept s -> run_microtask next s = Some s' -> kept s'.
Proof.
  intros [Hs Hns Hrej] [Ka Kb Kc Kd Ke]. unfold run_microtask.
  destruct (microtasks s) as [|j q] eqn:Hq; [discriminate|]. intros [= <-].
  fold (popped s q).
  destruct j as [p o|c o|sc]; simpl.
  - destruct (Kc p o) as [ws Hp]; [now left|].
    assert (Hlt : p < length (promises s)) by (eapply lookup_lt_Some, Hp).
    assert (Hrp : readyPromise s = Some p) by (eapply Hs, Hp).
    assert (Hsrv : server s = Some (mkServer p)) by (eapply Ka, Hp).
    assert (Hnoq : resumptions q = 0).
    { unfold resumptions in *. simpl in Kd. lia. }
    assert (Hnor : forall p' o', ~ In (ResumeInitializeNext p' o') q).
    { intros p' o' Hin. apply resumptions_In in Hin. lia. }
    assert (Hnorej : ~ rejection_queued s).
    { intros H. exact (Hrej H p true ws Hp). }
    assert (Hnof : forall p', promises s !! p' <> Some (Settled Fulfilled)).
    { intros p' Hp'. destruct (Kb p' Hp') as [H1 _]. rewrite Hrp in H1.
      injection H1 as ->. rewrite Hp in Hp'. discriminate Hp'. }
    assert (Hnone : forall o' q' r' ws',
              <[p := Settled o']> (promises s) !! q' <> Some (Pending r' ws')).
    { intros o' q' r' ws' Hq'. destruct (decide (p = q')) as [<-|Hne].
      - rewrite list_lookup_insert_eq in Hq' by exact Hlt. discriminate Hq'.
      - rewrite list_lookup_insert_ne in Hq' by exact Hne.
        pose proof (Hs q' r' ws' Hq') as H1. rewrite Hrp in H1.
        injection H1 as ->. now destruct Hne. }
    assert (Hresq : forall o' p' o'',
              ~ In (ResumeInitializeNext p' o'')
                   (q ++ map (fun c => ResumeEnsureReady c o') ws)).
    { intros o' p' o'' Hin. apply in_app_or in Hin as [Hin|Hin];
        [now destruct (Hnor p' o'')|].
      apply in_map_iff in Hin as (c & Hc & _). discriminate Hc. }
    unfold resume_initializeNext, initializeNext_catch, settle.
    destruct o as [|e]; simpl; rewrite Hp; split; unfold rejection_queued; simpl.
    + intros q' r' ws' Hq'. now destruct (Hnone Fulfilled q' r' ws').
    + intros q' Hq'. destruct (decide (p = q')) as [<-|Hne];
        [now split|].
      rewrite list_lookup_insert_ne in Hq' by exact Hne. now destruct (Hnof q').
    + intros p' o' Hin. now destruct (Hresq Fulfilled p' o').
    + rewrite resumptions_app, resumptions_resumes. lia.
    + intros q' _ (c & e & Hin). apply in_app_or in Hin as [Hin|Hin].
      * apply Hnorej. exists c, e. rewrite Hq. now right.
      * apply in_map_iff in Hin as (c' & Hc & _). discriminate Hc.
    + intros q' r' ws' Hq'. now destruct (Hnone (Rejected e) q' r' ws').
    + intros q' Hq'. destruct (decide (p = q')) as [<-|Hne].
      * rewrite list_lookup_insert_eq in Hq' by exact Hlt. discriminate Hq'.
      * rewrite list_lookup_insert_ne in Hq' by exact Hne.
        now destruct (Hnof q').
    + intros p' o' Hin. now destruct (Hresq (Rejected e) p' o').
    + rewrite resumptions_app, resumptions_resumes. lia.
    + intros q' Hq'. destruct (decide (p = q')) as [<-|Hne].
      * rewrite list_lookup_insert_eq in Hq' by exact Hlt. discriminate Hq'.
      * rewrite list_lookup_insert_ne in Hq' by exact Hne.
        now destruct (Hnof q').
  - assert (Hkq : forall p' o', In (ResumeInitializeNext p' o') q ->
                    exists ws, promises s !! p' = Some (Pending true ws)).
    { intros p' o' Hin. apply (Kc p' o'). now right. }
    assert (Hone : resumptions q <= 1).
    { unfold resumptions in *. simpl in Kd. exact Kd. }
    unfold resume_ensureReady. destruct o as [|e];
      split; unfold rejection_queued; simpl; auto.
    + intros p' Hp' (c' & e' & Hin). apply (Ke p' Hp').
      exists c', e'. rewrite Hq. now right.
    + intros p' Hp'. destruct (Ke p' Hp'). exists c, e. rewrite Hq. now left.
    + intros p' Hp'. destruct (Ke p' Hp'). exists c, e. rewrite Hq. now left.
  - destruct (Hns sc). rewrite Hq. now left.
Qed.

Lemma kept_drain fuel : forall s,
  draining s -> kept s -> kept (drain next fuel s).
Proof.
  induction fuel as [|fuel IH]; intros s Hd Hk; simpl; [exact Hk|].
  destruct (run_microtask next s) as [s'|] eqn:Hs; [|exact Hk].
  apply IH; [eapply draining_run_microtask|eapply kept_run_microtask]; eauto.
Qed.

Lemma kept_run_tasks fuel scripts : forall s,
  from_tasks_only scripts ->
  scripting s -> quiescent s -> kept s ->
  backlog s + length (concat scripts) <= fuel ->
  kept (run_tasks next fuel scripts s).
Proof.
  induction scripts as [|sc scripts IH]; intros s Hsp Hs Hq Hk Hb;
    [exact Hk|].
  change (run_tasks next fuel (sc :: scripts) s)
    with (run_tasks next fuel scripts (drain next fuel (run_script next sc s))).
  unfold from_tasks_only in Hsp. apply Forall_cons in Hsp as [Hsc Hsp].
  simpl in Hb. rewrite length_app in Hb.
  pose proof (scripting_run_script next sc s Hsc Hs) as Hs1.
  pose proof (backlog_run_script next sc s Hsc) as Hb1.
  destruct (drain_completes next fuel (run_script next sc s) (sc_draining _ Hs1))
    as [Hq2 Hb2]; [lia|].
  apply IH; [exact Hsp| |exact Hq2| |lia].
  - apply scripting_of_quiescent; [|exact Hq2]. apply draining_drain, Hs1.
  - apply kept_drain; [exact (sc_draining _ Hs1)|].
    now apply kept_run_script.
Qed.

End Kept.


(** X12: when no job queues a microtask of its own, readiness is
    permanent: at every point of the run at which some call of
    [ensureReady] has resolved, the attempt that succeeded is still
    recorded in [readyPromise], nothing is in flight, and both getters
    return the renderer of that attempt. *)
Theorem readiness_is_permanent next (fuel : nat)
    (scripts : list (list action)) (sc : list action) (k : nat) (c : nat) :
  let s := drain next k (run_script next sc (run_tasks next fuel scripts fresh)) in
  from_tasks_only (scripts ++ [sc]) ->
  length (concat scripts) <= fuel ->
  In (c, Fulfilled) (results s) ->
  exists p,
    promises s !! p = Some (Settled Fulfilled) /\
    readyPromise s = Some p /\
    getNextServer s = inr (mkServer p) /\
    getRequestHandler s = inr (HandlerOf (mkServer p)) /\
    in_flight s = 0.
Proof.
  cbv zeta. intros Hsp Hfuel Hin.
  unfold from_tasks_only in Hsp.
  apply Forall_app in Hsp as [Hsp Hsc]. apply Forall_cons in Hsc as [Hsc _].
  destruct (scripting_run_tasks next fuel scripts fresh Hsp (scripting_fresh))
    as [Hs Hq]; [reflexivity|exact Hfuel|].
  pose proof (kept_run_tasks next fuel scripts fresh Hsp (scripting_fresh)
                eq_refl (kept_fresh) Hfuel) as Hk.
  pose proof (scripting_run_script next sc _ Hsc Hs) as Hs1.
  pose proof (kept_run_script next sc _ Hsc Hs Hk) as Hk1.
  pose proof (draining_drain next k _ (sc_draining _ Hs1)) as Hd2.
  pose proof (kept_drain next k _ (sc_draining _ Hs1) Hk1) as Hk2.
  set (s := drain next k _) in *.
  assert (Hwf : wf next s).
  { apply wf_drain, wf_run_script, wf_run_tasks, wf_fresh. }
  pose proof (wf_results next s Hwf) as Hrs. rewrite Forall_forall in Hrs.
  destruct (Hrs (c, Fulfilled)) as [_ [p Hp]]; [now apply list_elem_of_In|].
  simpl in Hp. exists p.
  destruct (kept_ready s Hk2 p Hp) as [Hrp Hsrv].
  split; [exact Hp|]. split; [exact Hrp|].
  unfold getNextServer, getRequestHandler. rewrite Hsrv.
  split; [reflexivity|]. split; [reflexivity|].
  unfold in_flight. rewrite filter_no_pending; [reflexivity|].
  intros j r ws Hj. pose proof (dr_single s Hd2 j r ws Hj) as H1.
  rewrite Hrp in H1. injection H1 as ->. rewrite Hp in Hj. discriminate Hj.
Qed.

Lemma readiness_is_permanent_witness :
  let next := first_then_ok NextFalsy in
  let scripts := [[Call]; [Call; Call]; [Settle 1 Fulfilled]] in
  let s := drain next 2 (run_script next [Call; Settle 1 (Rejected (mkError "late"))]
                           (run_tasks next 4 scripts fresh)) in
  from_tasks_only (scripts ++ [[Call; Settle 1 (Rejected (mkError "late"))]]) /\
  length (concat scripts) <= 4 /\
  In (1, Fulfilled) (results s) /\
  exists p,
    promises s !! p = Some (Settled Fulfilled) /\
    readyPromise s = Some p /\
    getNextServer s = inr (mkServer p) /\
    getRequestHandler s = inr (HandlerOf (mkServer p)) /\
    in_flight s = 0.
Proof.
  cbv zeta.
  split; [repeat constructor|]. split; [simpl; lia|].
  split; [vm_compute; right; left; reflexivity|].
  apply (readiness_is_permanent (first_then_ok NextFalsy) 4
           [[Call]; [Call; Call]; [Settle 1 Fulfilled]]
           [Call; Settle 1 (Rejected (mkError "late"))] 2 1).
  - repeat constructor.
  - simpl. lia.
  - vm_compute. right; left; reflexivity.
Defined.

(** ** No readiness without a prepared renderer *)
Section Unready.

Variable next : nat -> next_result.

Lemma unready_fresh : unready fresh.
Proof. split; simpl; [intros p H; discriminate H|constructor..]. Qed.

Lemma not_fulfilled o : is_fulfilled o = false -> o <> Fulfilled.
Proof. intros H ->. discriminate H. Qed.

Lemma unready_ensureReady s : unready s -> unready (ensureReady next s).
Proof.
  intros [Hp Hr Hq].
  destruct (readyPromise s) as [p|] eqn:Hrp.
  - destruct (promises s !! p) as [[r ws|o]|] eqn:Hlook.
    + rewrite (ensureReady_pending next s p r ws Hrp Hlook).
      split; simpl; auto.
      intros q Hq'. destruct (decide (p = q)) as [<-|Hne].
      * rewrite list_lookup_insert_eq in Hq' by (eapply lookup_lt_Some, Hlook).
        discriminate Hq'.
      * rewrite list_lookup_insert_ne in Hq' by exact Hne. exact (Hp q Hq').
    + rewrite (ensureReady_settled next s p o Hrp Hlook).
      split; simpl; auto.
      apply Forall_app. split; [exact Hq|]. repeat constructor. simpl.
      destruct o; [now destruct (Hp p)|reflexivity].
    + rewrite (ensureReady_dangling next s p Hrp Hlook). split; simpl; auto.
  - pose proof (ensureReady_idle next s Hrp) as Hfirst. cbv zeta in Hfirst.
    rewrite Hfirst. clear Hfirst.
    assert (Hsnoc : forall x, x <> Settled Fulfilled ->
              forall q, (promises s ++ [x]) !! q <> Some (Settled Fulfilled)).
    { intros x Hx q Hq'. apply lookup_app_Some in Hq' as [Hq'|[_ Hq']];
        [exact (Hp q Hq')|].
      destruct (q - length (promises s)) as [|k]; [|destruct k; discriminate Hq'].
      injection Hq' as ->. now destruct Hx. }
    destruct (next (length (promises s))); split; simpl;
      try exact Hr; try exact Hq; try (apply Hsnoc; discriminate);
      (apply Forall_app; split; [exact Hq|]; repeat constructor).
Qed.

Lemma unready_settle s p e : unready s -> unready (settle p (Rejected e) s).
Proof.
  intros [Hp Hr Hq]. unfold settle.
  destruct (promises s !! p) as [[r ws|o']|] eqn:Hlook;
    try (split; assumption).
  split; simpl; auto.
  - intros q Hq'. destruct (decide (p = q)) as [<-|Hne].
    + rewrite list_lookup_insert_eq in Hq' by (eapply lookup_lt_Some, Hlook).
      discriminate Hq'.
    + rewrite list_lookup_insert_ne in Hq' by exact Hne. exact (Hp q Hq').
  - apply Forall_app. split; [exact Hq|]. apply Forall_map.
    apply Forall_forall. reflexivity.
Qed.

Lemma unready_settle_prepare s p o :
  is_fulfilled o = false -> unready s -> unready (settle_prepare p o s).
Proof.
  intros Ho Hu. unfold settle_prepare.
  destruct (promises s !! p) as [[[|] ws|o']|] eqn:Hlook; try exact Hu.
  destruct Hu as [Hp Hr Hq]. split; simpl; auto.
  - intros q Hq'. destruct (decide (p = q)) as [<-|Hne].
    + rewrite list_lookup_insert_eq in Hq' by (eapply lookup_lt_Some, Hlook).
      discriminate Hq'.
    + rewrite list_lookup_insert_ne in Hq' by exact Hne. exact (Hp q Hq').
  - apply Forall_app. split; [exact Hq|]. repeat constructor. simpl.
    now rewrite Ho.
Qed.

Lemma unready_run_script sc : forall s,
  forallb never_fulfils sc = true -> unready s -> unready (run_script next sc s).
Proof.
  unfold run_script. induction sc as [|a sc IH]; intros s Hsc Hu; simpl;
    [exact Hu|].
  simpl in Hsc. apply andb_prop in Hsc as [Ha Hsc]. apply IH; [exact Hsc|].
  destruct a as [|sc'|p o]; simpl.
  - now apply unready_ensureReady.
  - destruct Hu as [Hp Hr Hq]. split; simpl; auto.
    apply Forall_app. split; [exact Hq|]. repeat constructor. exact Ha.
  - apply unready_settle_prepare; [|exact Hu].
    simpl in Ha. now destruct (is_fulfilled o).
Qed.

Lemma unready_run_microtask s s' :
  unready s -> run_microtask next s = Some s' -> unready s'.
Proof.
  intros [Hp Hr Hq]. unfold run_microtask.
  destruct (microtasks s) as [|j q] eqn:Hqs; [discriminate|]. intros [= <-].
  apply Forall_cons in Hq as [Hj Hq].
  assert (Hpop : unready (popped s q)) by (split; assumption).
  fold (popped s q).
  destruct j as [p o|c o|sc]; simpl in *.
  - destruct o as [|e]; [discriminate Hj|].
    unfold initializeNext_catch. apply unready_settle.
    destruct Hpop as [H1 H2 H3]. split; assumption.
  - destruct o as [|e]; [discriminate Hj|].
    split; simpl; auto. apply Forall_app. split; [exact Hr|].
    repeat constructor.
  - apply unready_run_script; assumption.
Qed.

Lemma unready_drain fuel : forall s, unready s -> unready (drain next fuel s).
Proof.
  induction fuel as [|fuel IH]; intros s Hu; simpl; [exact Hu|].
  destruct (run_microtask next s) as [s'|] eqn:Hs; [|exact Hu].
  eapply IH, unready_run_microtask; eauto.
Qed.

Lemma unready_run_tasks fuel scripts : forall s,
  forallb (forallb never_fulfils) scripts = true ->
  unready s -> unready (run_tasks next fuel scripts s).
Proof.
  unfold run_tasks, run_task.
  induction scripts as [|sc scripts IH]; intros s Hsc Hu; simpl; [exact Hu|].
  simpl in Hsc. apply andb_prop in Hsc as [Ha Hsc].
  apply IH; [exact Hsc|]. apply unready_drain, unready_run_script; assumption.
Qed.

End Unready.


(** X13: under every schedule in which [prepare()] is never fulfilled,
    also in the microtasks that callers queue, no call of [ensureReady]
    ever resolves, no attempt is ever fulfilled, and [bootstrap] is
    either still waiting or has thrown: it never gets a handler. *)
Theorem no_readiness_without_prepare next (fuel : nat)
    (scripts : list (list action)) :
  let s := run_tasks next fuel scripts fresh in
  forallb (forallb never_fulfils) scripts = true ->
  (forall c, ~ In (c, Fulfilled) (results s)) /\
  (forall c, bootstrap_handle c s = None
             \/ exists e, bootstrap_handle c s = Some (inl e)) /\
  (forall p, promises s !! p <> Some (Settled Fulfilled)).
Proof.
  cbv zeta. intros Hsc.
  destruct (unready_run_tasks next fuel scripts fresh Hsc (unready_fresh))
    as [Hp Hr Hq].
  assert (Hres : forall c, ~ In (c, Fulfilled)
                   (results (run_tasks next fuel scripts fresh))).
  { intros c Hin. rewrite Forall_forall in Hr.
    apply list_elem_of_In in Hin. specialize (Hr _ Hin). discriminate Hr. }
  split; [exact Hres|]. split; [|exact Hp].
  intros c. unfold bootstrap_handle, result_of.
  destruct (find _ _) as [[c' o]|] eqn:Hfind; simpl; [|now left].
  apply find_some in Hfind as [Hin Hc]. simpl in Hc.
  destruct o as [|e]; [|right; eauto].
  apply Nat.eqb_eq in Hc as ->. now destruct (Hres c).
Qed.

Lemma no_readiness_without_prepare_witness :
  let next := fun _ : nat => NextObject in
  let scripts := [[Call; Spawn [Call; Settle 0 (Rejected (mkError "disk"))]];
                  [Call]; [Settle 1 (Rejected (mkError "disk"))]] in
  let s := run_tasks next 5 scripts fresh in
  forallb (forallb never_fulfils) scripts = true /\
  (forall c, ~ In (c, Fulfilled) (results s)) /\
  (forall c, bootstrap_handle c s = None
             \/ exists e, bootstrap_handle c s = Some (inl e)) /\
  (forall p, promises s !! p <> Some (Settled Fulfilled)).
Proof.
  cbv zeta. split; [reflexivity|].
  apply (no_readiness_without_prepare (fun _ => NextObject) 5
           [[Call; Spawn [Call; Settle 0 (Rejected (mkError "disk"))]];
            [Call]; [Settle 1 (Rejected (mkError "disk"))]]).
  reflexivity.
Defined.

End GateMore.

(** * Properties of the home page *)
Module PageProps.
Import Router Page.

(** X14: the status box shows "Loading..." until the request has
    settled and never afterwards, however the request ends.  It shows
    the data exactly when the response had a JSON body that JavaScript
    takes for true, whatever the HTTP status was; in every other case
    it shows the error text. *)
Theorem box_after_fetch (value : Type) (truthy : value -> bool)
    (f : fetched value) :
  let st := after_fetch value f (mounted_state value) in
  render value truthy (mounted_state value) = Loading value /\
  render value truthy st <> Loading value /\
  (forall data, render value truthy st = ShowData value data
                <-> exists status, f = Parsed value status data
                                   /\ truthy data = true) /\
  (render value truthy st = ShowError value
   <-> forall status data, f = Parsed value status data -> truthy data = false).
Proof.
  cbv zeta. unfold render, after_fetch, mounted_state. simpl.
  split; [reflexivity|].
  destruct f as [|status|status data]; simpl.
  - split; [discriminate|]. split.
    + intros data. split; [discriminate|]. intros (status & H & _). discriminate H.
    + split; [|reflexivity]. intros _ status data H. discriminate H.
  - split; [discriminate|]. split.
    + intros data. split; [discriminate|]. intros (st & H & _). discriminate H.
    + split; [|reflexivity]. intros _ st data H. discriminate H.
  - destruct (truthy data) eqn:Ht.
    + split; [discriminate|]. split.
      * intros data'. split.
        -- intros [= <-]. eauto.
        -- intros (st & [= _ <-] & _). reflexivity.
      * split; [discriminate|]. intros H.
        specialize (H status data eq_refl). congruence.
    + split; [discriminate|]. split.
      * intros data'. split; [discriminate|].
        intros (st & [= _ <-] & Ht'). congruence.
      * split; [|reflexivity]. intros _ st data' [= _ <-]. exact Ht.
Qed.

(** X15: the request that the page makes, [GET /api/status], is passed
    on by the middleware to the API and not handed to the renderer; the
    API answers with the body of [getStatus]; and with that body the
    page shows the data, with the time of the request in it. *)
Theorem page_shows_api_status handle (hello now : string) (res : Response) :
  let req := mkRequest GET "/api/status" in
  calls handle req res = [CallNext None] /\
  dispatch hello now req = Some (getStatus now) /\
  render body body_truthy
    (after_fetch body (Parsed body 200 (getStatus now)) (mounted_state body))
  = ShowData body (getStatus now).
Proof.
  cbv zeta. split; [|split; reflexivity].
  rewrite RouterProps.calls_unfold. reflexivity.
Qed.

End PageProps.
